(** * code-surfer: the step-transition animation engine

    A shallow embedding of [packs/standalone/src/animation.ts] and the
    properties its specification states about it.

    Modelling conventions.
    - A JavaScript [number] is an exact rational ([Qc], canonical fractions, so
      that equal numbers are equal terms).  Rounding to binary64, signed
      zeros and the non-finite values are outside this model; in particular
      a quotient by zero ([Infinity] or [NaN] in JavaScript) is not
      represented, [Qc]'s own convention standing in its place.
    - An object used as a bag of properties (a [CSSProperties] style) is a
      finite map from property names to values; [undefined] on a property
      read is [None].
    - [null]/[undefined] arguments are [option]; [throw] is the [Throw]
      constructor of [result].
    - Where aliasing matters (the defensive copy made by [chain]) objects live
      in a store of locations, see [Module Heap]. *)

From Stdlib Require Import QArith Qcanon Lqa.
From stdpp Require Import gmap strings list fin_maps numbers.

Local Open Scope Qc_scope.

(** ** Numbers *)

Abbreviation number := Qc (only parsing).

Definition ofZ (z : Z) : number := Q2Qc (inject_Z z).
Definition frac (n : Z) (d : positive) : number := Q2Qc (n # d).

(** [a < b] and [a > b] on numbers, as booleans. *)
Definition lt (a b : number) : bool := bool_decide (a < b).
Definition gt (a b : number) : bool := bool_decide (b < a).

(** [Math.max(a, b)] and [Math.min(a, b, c)]. *)
Definition Math_max (a b : number) : number := if lt a b then b else a.
Definition Math_min (a b : number) : number := if lt b a then b else a.
Definition Math_min3 (a b c : number) : number := Math_min (Math_min a b) c.

(** ** Style objects *)

(** The values the styles of this file hold: a number, or the string
    [`translateX(${px}px)`] kept as the number it was built from. *)
Inductive value :=
  | VNum (n : number)
  | VTranslateX (px : number).

Abbreviation Style := (gmap string value) (only parsing).

Definition Animation (T : Type) : Type := number → T.
Abbreviation StyleAnimation := (Animation (gmap string value)) (only parsing).

Definition emptyStyle : Style := ∅.

(** [Object.assign(target, source)]: every own property of [source] is
    written into [target], one after the other. *)
Definition Object_assign (target source : Style) : Style :=
  map_fold (λ key v acc, <[key := v]> acc) target source.

(** ** Easing *)

Definition Easing : Type := number → number.

(** Modelled from the spec: the module [./easing] is not part of the sources.
    Section 4.1 gives [linear] as the identity curve. *)
Definition linear : Easing := λ t, t.

(** Modelled from the spec: a curve of the smoothstep family to stand for
    [easing.easeInOutQuad] where a concrete curve is needed; the properties
    below only use the contract [ease 0 = 0] and [ease 1 = 1]. *)
Definition easeInOutQuad_std : Easing := λ t,
  if lt t (frac 1 2) then ofZ 2 * t * t else ofZ (-1) + (ofZ 4 - ofZ 2 * t) * t.

(** ** tween and chain *)

Definition tween (from to t : number) (ease : Easing) : number :=
  from + (to - from) * ease t.

(** One entry of the [steps] array: [[top, fn]], [fn] possibly [undefined]. *)
Abbreviation Segment := (number * option (number → gmap string value))%type
  (only parsing).

(** The local progress [stept] computed in the body of the loop. *)
Definition stept_of (t prevTop top : number) : number :=
  if gt t top then 1 else (t - prevTop) / (top - prevTop).

(** The [for] loop of [chain], from index [i] on; [n] bounds the number of
    iterations left, and [steps !! i = None] is the exit test
    [i < steps.length] failing. *)
Fixpoint chain_loop (steps : list Segment) (t : number) (n i : nat)
    (style : Style) (prevTop : number) : Style :=
  match n with
  | O => style
  | S n' =>
      match steps !! i with
      | None => style
      | Some (top, fn) =>
          let stept := stept_of t prevTop top in
          let style :=
            match fn with
            | Some fn => Object_assign style (fn stept)
            | None => style
            end in
          if lt t top then style
          else chain_loop steps t n' (S i) style top
      end
  end.

Definition chain (steps : list Segment) (start : Style) : StyleAnimation :=
  λ t,
    let style := Object_assign ∅ start in
    chain_loop steps t (length steps) 0 style 0.

(** The algorithm of section 4.3 of the specification, in its words: a
    short-circuiting left fold over the breakpoint list.  The merge is
    described by its result: a property of the new style wins, every other
    property of the running style is kept. *)
Definition merge_last_wins (running new : Style) : Style := new ∪ running.

Fixpoint fold_breakpoints (segments : list Segment) (t prevBreakpoint : number)
    (running : Style) : Style :=
  match segments with
  | [] => running
  | (threshold, subAnimation) :: later =>
      let localT :=
        if bool_decide (threshold < t) then 1
        else (t - prevBreakpoint) / (threshold - prevBreakpoint) in
      let running :=
        match subAnimation with
        | Some a => merge_last_wins running (a localT)
        | None => running
        end in
      if bool_decide (t < threshold) then running
      else fold_breakpoints later t threshold running
  end.

Definition chain_spec (segments : list Segment) (start : Style) : StyleAnimation :=
  λ t, fold_breakpoints segments t 0 start.

(** Modelled from the spec: the invariant of a breakpoint list (section 3),
    thresholds in (0,1], strictly increasing, the last one equal to 1.  The
    source does not check it. *)
Fixpoint strictly_increasing (prev : number) (segments : list Segment) : bool :=
  match segments with
  | [] => true
  | (threshold, _) :: later =>
      lt prev threshold && strictly_increasing threshold later
  end.

Definition valid_breakpoints (segments : list Segment) : bool :=
  strictly_increasing 0 segments
  && bool_decide (list.last (fst <$> segments) = Some 1).

(** ** Constants of the module *)

Definition distx : number := ofZ 250.
Definition outHeight : number := 0.

(** The three phases of a transition end at these progress values. *)
Definition EXIT : number := frac 3 10.
Definition SCROLL : number := frac 7 10.
Definition ENTER : number := 1.

(** ** Collaborator types *)

(** Modelled from the spec: the package [code-surfer-types] is not part of
    the sources.  A step carries [focusCenter], [focusCount] and optional
    measured [dimensions], of which [getZoom] reads the two paddings. *)
Record StepDimensions := {
  paddingTop : number;
  paddingBottom : number
}.

Record Step := {
  focusCenter : number;
  focusCount : number;
  dimensions : option StepDimensions
}.

Record Dimensions := {
  containerHeight : number;
  containerWidth : number;
  contentWidth : number;
  lineHeight : number
}.

(** Modelled from the spec: the module [./tuple] is not part of the sources.
    A [Tuple<Step>] is the ordered pair (previous, next), either side
    possibly absent, and [spread] returns the two sides. *)
Definition Tuple (A : Type) : Type := (option A * option A)%type.
Definition spread {A : Type} (p : Tuple A) : option A * option A := p.

(** The scroll target of one side of a pair, in the words of section 4.5:
    [focusCenter * lineHeight], and [0] for an absent side. *)
Definition scroll_target (side : option Step) (dims : Dimensions) : number :=
  match side with
  | Some step => focusCenter step * lineHeight dims
  | None => 0
  end.

(** ** Exceptions *)

Inductive result (A : Type) :=
  | Ok (a : A)
  | Throw (message : string).
Arguments Ok {A} a.
Arguments Throw {A} message.

Definition result_bind {A B : Type} (r : result A) (k : A → result B) : result B :=
  match r with
  | Ok a => k a
  | Throw message => Throw message
  end.

(** ** Coercions of [number | null] *)

(** [ToBoolean]: [null] and [0] are falsy. *)
Definition truthy (v : option number) : bool :=
  match v with
  | None => false
  | Some n => bool_decide (n ≠ 0)
  end.

(** [a || b]. *)
Definition or_else (a b : option number) : option number :=
  if truthy a then a else b.

(** [ToNumber], applied by the arithmetic of [tween]: [null] is [0]. *)
Definition toNumber (v : option number) : number :=
  match v with
  | None => 0
  | Some n => n
  end.

(** ** Animations that need no easing curve but [linear] *)

Definition slideToLeft (startOpacity endOpacity : number) : StyleAnimation :=
  λ t, {[ "opacity" := VNum (tween startOpacity endOpacity t linear);
          "transform" := VTranslateX (tween 0 (- distx) t linear) ]}.

Definition slideFromRight (startOpacity endOpacity : number) : StyleAnimation :=
  λ t, {[ "opacity" := VNum (tween startOpacity endOpacity t linear);
          "transform" := VTranslateX (tween distx 0 t linear) ]}.

Definition fadeOut (offOpacity : number) : StyleAnimation :=
  λ t, {[ "opacity" := VNum (tween 1 offOpacity t linear) ]}.

Definition fadeIn (offOpacity : number) : StyleAnimation :=
  λ t, {[ "opacity" := VNum (tween offOpacity 1 t linear) ]}.

Definition focus (fromOpacity toOpacity : number) : StyleAnimation :=
  λ t, {[ "opacity" := VNum (tween fromOpacity toOpacity t linear) ]}.

Definition unfocus (fromOpacity toOpacity : number) : StyleAnimation :=
  λ t, {[ "opacity" := VNum (tween fromOpacity toOpacity t linear) ]}.

Definition changeFocus (fromOpacity toOpacity : number) : StyleAnimation :=
  if lt fromOpacity toOpacity then
    chain
      [ (EXIT, None);
        (SCROLL, None);
        (ENTER, Some (λ t, {[ "opacity" :=
                   VNum (tween fromOpacity toOpacity t linear) ]})) ]
      {[ "opacity" := VNum fromOpacity ]}
  else
    chain
      [ (EXIT, Some (λ t, {[ "opacity" :=
                  VNum (tween fromOpacity toOpacity t linear) ]}));
        (SCROLL, None);
        (ENTER, None) ]
      {[ "opacity" := VNum fromOpacity ]}.

(** The default of the parameter [start] of [chain] is [{}]; the default of
    [offOpacity] is [0]: callers of the model pass them. *)
Definition fadeOutIn (offOpacity : number) : StyleAnimation :=
  chain [ (frac 1 2, Some (fadeOut offOpacity)); (1, Some (fadeIn offOpacity)) ] ∅.

Definition halfFadeIn (offOpacity : number) : StyleAnimation :=
  chain [ (frac 1 2, None); (1, Some (fadeIn offOpacity)) ]
    {[ "opacity" := VNum 0 ]}.

Definition halfFadeOut (offOpacity : number) : StyleAnimation :=
  chain [ (frac 1 2, Some (fadeOut offOpacity)); (1, None) ] ∅.

(** ** getZoom *)

Definition getZoom (step : option Step) (dims : option Dimensions)
    : result (option number) :=
  match step with
  | None => Ok None
  | Some step =>
      match dims, dimensions step with
      | Some dims, Some stepDimensions =>
          let contentHeight := focusCount step * lineHeight dims in
          let availableHeight :=
            containerHeight dims
            - Math_max (paddingBottom stepDimensions) (paddingTop stepDimensions)
              * ofZ 2 in
          let yZoom := availableHeight / contentHeight in
          let xZoom := (frac 9 10 * containerWidth dims) / contentWidth dims in
          Ok (Some (Math_min3 yZoom 1 xZoom))
      | _, _ => Throw "Can't get zoom without dimensions"
      end
  end.

(** ** Animations built on [easing.easeInOutQuad] *)

Section Animations.

Variable easeInOutQuad : Easing.

Definition shrinkHeight (lineHeight : number) : StyleAnimation :=
  λ t, {[ "height" := VNum (tween lineHeight outHeight t easeInOutQuad) ]}.

Definition growHeight (lineHeight : number) : StyleAnimation :=
  λ t, {[ "height" := VNum (tween outHeight lineHeight t easeInOutQuad) ]}.

(** [lineHeight] defaults to [100] in the source. *)
Definition exitLine (fromOpacity toOpacity lineHeight : number) : StyleAnimation :=
  chain
    [ (EXIT, Some (slideToLeft fromOpacity toOpacity));
      (SCROLL, Some (shrinkHeight lineHeight));
      (ENTER, None) ]
    ∅.

Definition enterLine (fromOpacity toOpacity lineHeight : number) : StyleAnimation :=
  chain
    [ (EXIT, None);
      (SCROLL, Some (growHeight lineHeight));
      (ENTER, Some (slideFromRight fromOpacity toOpacity)) ]
    {[ "transform" := VTranslateX distx;
       "height" := VNum 0;
       "opacity" := VNum 0 ]}.

(** The result is the property [scroll] read off the style. *)
Definition scrollToFocus (stepPair : Tuple Step) (dims : option Dimensions)
    : Animation (option value) :=
  match dims with
  | None => λ _, Some (VNum 0)
  | Some dims =>
      let '(prevStep, nextStep) := spread stepPair in
      let prevCenter :=
        match prevStep with
        | Some prevStep => focusCenter prevStep * lineHeight dims
        | None => 0
        end in
      let nextCenter :=
        match nextStep with
        | Some nextStep => focusCenter nextStep * lineHeight dims
        | None => 0
        end in
      let animation :=
        chain
          [ (EXIT, None);
            (SCROLL, Some (λ t, {[ "scroll" :=
                        VNum (tween prevCenter nextCenter t easeInOutQuad) ]}));
            (ENTER, None) ]
          {[ "scroll" := VNum prevCenter ]} in
      λ t, animation t !! "scroll"
  end.

(** Both zooms are computed before the animation is returned, so an
    exception of [getZoom] is an exception of [scaleToFocus]. *)
Definition scaleToFocus (stepPair : Tuple Step) (dims : option Dimensions)
    : result (Animation number) :=
  match dims with
  | None => Ok (λ _, 1)
  | Some dims =>
      let '(prev, next) := spread stepPair in
      result_bind (getZoom prev (Some dims)) (λ prevZoom,
      result_bind (getZoom next (Some dims)) (λ nextZoom,
        Ok (λ t,
          tween
            (toNumber (or_else prevZoom nextZoom))
            (toNumber (or_else nextZoom prevZoom))
            t
            easeInOutQuad)))
  end.

End Animations.

(** ** Objects in a store *)

(** Styles as objects with identity: a store maps locations to the
    properties of the object living there.  Used to state that [chain]
    copies its [start] template instead of sharing it. *)
Module Heap.

Abbreviation loc := positive (only parsing).
Abbreviation heap := (gmap positive (gmap string value)) (only parsing).

(** A computation reads and updates the store. *)
Definition M (A : Type) : Type := heap → A * heap.

#[global] Instance M_ret : MRet M := λ A a h, (a, h).

#[global] Instance M_bind : MBind M :=
  λ A B k m h, let '(a, h') := m h in k a h'.

(** An object literal: a new object at a location not in use. *)
Definition new_object (props : Style) : M loc :=
  λ h, let l := fresh (dom h) in (l, <[l := props]> h).

(** [Object.assign(target, source)] on two objects of the store; it
    returns [target]. *)
Definition assign (target source : loc) : M loc :=
  λ h,
    match h !! target, h !! source with
    | Some tprops, Some sprops =>
        (target, <[target := Object_assign tprops sprops]> h)
    | _, _ => (target, h)
    end.

(** [o[key] = v]. *)
Definition set_property (o : loc) (key : string) (v : value) : M unit :=
  λ h, (tt, alter (λ props, <[key := v]> props) o h).

(** A call of a sub-animation: the functions of this module return a
    fresh object literal. *)
Definition call (fn : number → Style) (t : number) : M loc :=
  new_object (fn t).

Fixpoint chain_loop (steps : list Segment) (t : number) (n i : nat)
    (style : loc) (prevTop : number) : M loc :=
  match n with
  | O => mret style
  | S n' =>
      match steps !! i with
      | None => mret style
      | Some (top, fn) =>
          let stept := stept_of t prevTop top in
          _ ← match fn with
              | Some fn => o ← call fn stept; assign style o
              | None => mret style
              end;
          if lt t top then mret style
          else chain_loop steps t n' (S i) style top
      end
  end.

(** The animation returned by [chain steps start], [start] being the
    location of the caller's template. *)
Definition chain (steps : list Segment) (start : loc) (t : number) : M loc :=
  empty ← new_object ∅;
  style ← assign empty start;
  chain_loop steps t (length steps) 0 style 0.

End Heap.

(** ** Vocabulary for the properties of chain *)

(** What one segment does to the running style when its sub-animation is
    taken at local progress [x]. *)
Definition apply_segment (fn : option (number → Style)) (x : number)
    (style : Style) : Style :=
  match fn with
  | Some fn => Object_assign style (fn x)
  | None => style
  end.

(** The running style once every segment of [segments] is complete: each
    sub-animation at local progress 1, merged in order. *)
Definition settled (segments : list Segment) (style : Style) : Style :=
  foldl (λ running segment, apply_segment segment.2 1 running) style segments.

(** The value of [prevTop] after the loop went through [segments], having
    started them with [prev]. *)
Definition last_top (prev : number) (segments : list Segment) : number :=
  default prev (list.last (fst <$> segments)).

(** * Properties *)

Lemma Object_assign_union (target source : Style) :
  Object_assign target source = source ∪ target.
Proof.
  unfold Object_assign.
  induction source as [|key v source Hfresh Hfold IH] using map_first_key_ind.
  - rewrite map_fold_empty. by rewrite (left_id_L ∅ (∪)).
  - rewrite map_fold_insert_first_key by done.
    rewrite IH. by rewrite insert_union_l.
Qed.

Lemma Object_assign_empty (start : Style) : Object_assign ∅ start = start.
Proof. rewrite Object_assign_union. by rewrite (right_id_L ∅ (∪)). Qed.

Lemma Object_assign_lookup (target source : Style) (key : string) :
  Object_assign target source !! key =
  match source !! key with Some v => Some v | None => target !! key end.
Proof.
  rewrite Object_assign_union, lookup_union.
  destruct (source !! key), (target !! key); done.
Qed.

Lemma chain_loop_fold (steps : list Segment) (t : number) :
  ∀ (done_ : list Segment) (n : nat) (style : Style) (prevTop : number),
    n = length steps →
    chain_loop (done_ ++ steps) t n (length done_) style prevTop =
    fold_breakpoints steps t prevTop style.
Proof.
  induction steps as [|[top fn] steps IH]; intros done_ n style prevTop ->.
  - done.
  - cbn [chain_loop length fold_breakpoints].
    rewrite lookup_app_r by lia. rewrite Nat.sub_diag. cbn [lookup list_lookup].
    unfold stept_of, gt, lt, merge_last_wins.
    assert (∀ s, chain_loop (done_ ++ (top, fn) :: steps) t (length steps)
                   (S (length done_)) s top
                 = fold_breakpoints steps t top s) as Hrest.
    { intros s. specialize (IH (done_ ++ [(top, fn)]) (length steps) s top).
      rewrite <-(assoc_L (++)) in IH. cbn [app] in IH.
      rewrite length_app in IH. cbn [length] in IH.
      rewrite Nat.add_1_r in IH. by apply IH. }
    destruct fn as [fn|]; rewrite ?Object_assign_union;
      case_bool_decide; auto.
Qed.

Lemma chain_fold (steps : list Segment) (start : Style) (t : number) :
  chain steps start t = fold_breakpoints steps t 0 start.
Proof.
  unfold chain. rewrite Object_assign_empty.
  by apply (chain_loop_fold steps t []).
Qed.

Lemma fold_breakpoints_short_circuit (earlier later : list Segment)
    (top : number) (fn : option (number → Style)) (t : number) :
  t < top →
  ∀ (prev : number) (running : Style),
    fold_breakpoints (earlier ++ (top, fn) :: later) t prev running =
    fold_breakpoints (earlier ++ [(top, fn)]) t prev running.
Proof.
  intros Ht. induction earlier as [|[top' fn'] earlier IH]; intros prev running.
  - cbn [app fold_breakpoints]. by rewrite (bool_decide_eq_true_2 (t < top)).
  - cbn [app fold_breakpoints]. rewrite IH. done.
Qed.

(** C1: the animation returned by [chain] is the short-circuiting fold of the
    specification: for every breakpoint list, start style and progress, the
    loop of the source and the fold of section 4.3 return the same style;
    [Object.assign] is the last-write-wins merge, read property by property;
    and the segments after one whose threshold is above [t] play no part in
    the result. *)
Theorem chain_is_short_circuiting_fold :
  (∀ (steps : list Segment) (start : Style) (t : number),
     chain steps start t = chain_spec steps start t) ∧
  (∀ (running new : Style) (key : string),
     Object_assign running new !! key =
     match new !! key with Some v => Some v | None => running !! key end) ∧
  (∀ (earlier later : list Segment) (top : number)
     (fn : option (number → Style)) (start : Style) (t : number),
     t < top →
     chain (earlier ++ (top, fn) :: later) start t =
     chain (earlier ++ [(top, fn)]) start t).
Proof.
  split; [|split].
  - intros steps start t. apply chain_fold.
  - apply Object_assign_lookup.
  - intros earlier later top fn start t Ht. rewrite !chain_fold.
    by apply fold_breakpoints_short_circuit.
Qed.

(** ** Order and arithmetic on the constants *)

Lemma this_EXIT : (EXIT : Q) = (3 # 10)%Q.
Proof. reflexivity. Qed.
Lemma this_SCROLL : (SCROLL : Q) = (7 # 10)%Q.
Proof. reflexivity. Qed.
Lemma this_ENTER : (ENTER : Q) = 1%Q.
Proof. reflexivity. Qed.
Lemma this_0 : ((0 : Qc) : Q) = 0%Q.
Proof. reflexivity. Qed.
Lemma this_1 : ((1 : Qc) : Q) = 1%Q.
Proof. reflexivity. Qed.

(** Comparisons between a progress value and the phase boundaries, decided
    on the underlying fractions. *)
Ltac qc_order :=
  unfold Qclt, Qcle in *;
  rewrite ?this_EXIT, ?this_SCROLL, ?this_ENTER, ?this_0, ?this_1 in *;
  first [ lra | intro; lra ].

(** Two closed numbers differ: compare their fractions. *)
Ltac qc_closed_neq :=
  let H := fresh in
  intros H; apply (f_equal this) in H; vm_compute in H; discriminate.

Lemma localT_done (t prev top : number) :
  prev < top → top ≤ t →
  (if bool_decide (top < t) then 1 else (t - prev) / (top - prev)) = 1.
Proof.
  intros Hlt Hle. case_bool_decide as Hgt; [done|].
  assert (t = top) as -> by (apply Qcle_antisym; [by apply Qcnot_lt_le | done]).
  field. intros Heq. apply (Qclt_not_eq _ _ Hlt).
  rewrite <-(Qcplus_0_l prev), <-Heq. ring.
Qed.

(** Settle the tests of the fold from the hypotheses on [t]. *)
Ltac settle_tests :=
  repeat match goal with
  | |- context [if bool_decide (?top < ?t) then 1 else (?t - ?prev) / (?top - ?prev)] =>
      rewrite (localT_done t prev top) by qc_order
  | |- context [bool_decide (?a < ?b)] =>
      first [ rewrite (bool_decide_eq_true_2 (a < b)) by qc_order
            | rewrite (bool_decide_eq_false_2 (a < b)) by qc_order ]
  end.

Ltac run_chain :=
  rewrite chain_fold; cbn [fold_breakpoints]; settle_tests;
  unfold merge_last_wins.

Lemma tween_linear_0 (a b : number) : tween a b 0 linear = a.
Proof. unfold tween, linear. ring. Qed.

Lemma tween_linear_1 (a b : number) : tween a b 1 linear = b.
Proof. unfold tween, linear. ring. Qed.

Lemma singleton_over (key : string) (v w : value) :
  ({[ key := v ]} : Style) ∪ {[ key := w ]} = {[ key := v ]}.
Proof.
  apply map_eq. intros k. rewrite lookup_union.
  destruct (decide (k = key)) as [->|Hne].
  - by rewrite !lookup_singleton_eq.
  - by rewrite !lookup_singleton_ne.
Qed.

(** ** chain at progress 0 *)

Lemma fadeOutIn_breakpoints_valid (offOpacity : number) :
  valid_breakpoints
    [ (frac 1 2, Some (fadeOut offOpacity)); (1, Some (fadeIn offOpacity)) ] = true.
Proof. reflexivity. Qed.

(** C2, as stated, fails: [fadeOutIn()] is a chain over a valid breakpoint
    list with the empty start style, and at progress 0 it already carries
    [opacity: 1]. *)
Lemma chain_at_0_is_not_start :
  ¬ (∀ (segments : list Segment) (start : Style),
       valid_breakpoints segments = true → chain segments start 0 = start).
Proof.
  intros Hclaim.
  specialize (Hclaim _ ∅ (fadeOutIn_breakpoints_valid 0)).
  apply (f_equal (λ style : Style, style !! "opacity")) in Hclaim.
  vm_compute in Hclaim. discriminate.
Qed.

(** C2, amended: at progress 0 the chain over a valid breakpoint list returns
    the start style with the properties of the first sub-animation, taken at
    local progress 0, written over it; it is the start style itself when the
    first segment has no sub-animation. *)
Theorem chain_at_0 (top : number) (fn : option (number → Style))
    (later : list Segment) (start : Style) :
  valid_breakpoints ((top, fn) :: later) = true →
  chain ((top, fn) :: later) start 0 =
  match fn with
  | Some fn => Object_assign start (fn 0)
  | None => start
  end.
Proof.
  intros Hvalid. unfold valid_breakpoints in Hvalid. cbn in Hvalid.
  apply andb_prop in Hvalid as [Hincr _].
  apply andb_prop in Hincr as [Hpos _].
  unfold lt in Hpos. apply bool_decide_eq_true_1 in Hpos.
  rewrite chain_fold. cbn [fold_breakpoints].
  rewrite (bool_decide_eq_true_2 (0 < top)) by done.
  rewrite (bool_decide_eq_false_2 (top < 0)) by (by apply Qcle_not_lt, Qclt_le_weak).
  replace ((0 - 0) / (top - 0)) with (0 : Qc) by (unfold Qcdiv; ring).
  destruct fn as [fn|]; [|done].
  by rewrite Object_assign_union.
Qed.

(** ** getZoom *)

Lemma Math_min_le_l (a b : number) : Math_min a b ≤ a.
Proof.
  unfold Math_min, lt. case_bool_decide; [by apply Qclt_le_weak | apply Qcle_refl].
Qed.

Lemma Math_min_le_r (a b : number) : Math_min a b ≤ b.
Proof.
  unfold Math_min, lt. case_bool_decide; [apply Qcle_refl | by apply Qcnot_lt_le].
Qed.

Lemma Math_min_choice (a b : number) : Math_min a b = a ∨ Math_min a b = b.
Proof. unfold Math_min. destruct (lt b a); auto. Qed.

Lemma Math_min3_least (a b c : number) :
  Math_min3 a b c ≤ a ∧ Math_min3 a b c ≤ b ∧ Math_min3 a b c ≤ c ∧
  (Math_min3 a b c = a ∨ Math_min3 a b c = b ∨ Math_min3 a b c = c).
Proof.
  unfold Math_min3. repeat split.
  - eapply Qcle_trans; [apply Math_min_le_l | apply Math_min_le_l].
  - eapply Qcle_trans; [apply Math_min_le_l | apply Math_min_le_r].
  - apply Math_min_le_r.
  - destruct (Math_min_choice (Math_min a b) c) as [->| ->]; [|auto].
    destruct (Math_min_choice a b) as [->| ->]; auto.
Qed.

Lemma Math_max_greatest (a b : number) :
  a ≤ Math_max a b ∧ b ≤ Math_max a b ∧ (Math_max a b = a ∨ Math_max a b = b).
Proof.
  unfold Math_max, lt. case_bool_decide as H.
  - split; [by apply Qclt_le_weak|]. split; [apply Qcle_refl | by right].
  - split; [apply Qcle_refl|]. split; [by apply Qcnot_lt_le | by left].
Qed.

(** C3: for a step with measured dimensions and a dimensions record,
    [getZoom] returns the least of [yZoom], [1] and [xZoom], with
    [contentHeight = focusCount * lineHeight],
    [availableHeight = containerHeight - 2 * max(paddingTop, paddingBottom)],
    [yZoom = availableHeight / contentHeight] and
    [xZoom = 0.9 * containerWidth / contentWidth]; so the zoom is never above
    1, and it is 1 for a 200 by 100 container, no padding, 10 focused lines
    of height 10 and a content width of 50. *)
Theorem getZoom_is_min (center count : number) (measured : StepDimensions)
    (dims : Dimensions) :
  let step :=
    {| focusCenter := center; focusCount := count; dimensions := Some measured |} in
  let contentHeight := count * lineHeight dims in
  let padding := Math_max (paddingTop measured) (paddingBottom measured) in
  let availableHeight := containerHeight dims - ofZ 2 * padding in
  let yZoom := availableHeight / contentHeight in
  let xZoom := frac 9 10 * containerWidth dims / contentWidth dims in
  (paddingTop measured ≤ padding ∧ paddingBottom measured ≤ padding ∧
   (padding = paddingTop measured ∨ padding = paddingBottom measured)) ∧
  (∃ zoom, getZoom (Some step) (Some dims) = Ok (Some zoom) ∧
     zoom ≤ yZoom ∧ zoom ≤ 1 ∧ zoom ≤ xZoom ∧
     (zoom = yZoom ∨ zoom = 1 ∨ zoom = xZoom)) ∧
  getZoom
    (Some {| focusCenter := center; focusCount := ofZ 10;
             dimensions := Some {| paddingTop := 0; paddingBottom := 0 |} |})
    (Some {| containerHeight := ofZ 200; containerWidth := ofZ 100;
             contentWidth := ofZ 50; lineHeight := ofZ 10 |})
  = Ok (Some 1).
Proof.
  intros step contentHeight padding availableHeight yZoom xZoom.
  split; [|split].
  - apply Math_max_greatest.
  - eexists. split; [reflexivity|].
    replace (Math_max (paddingBottom measured) (paddingTop measured) * ofZ 2)
      with (ofZ 2 * padding).
    + apply Math_min3_least.
    + unfold padding, Math_max, lt.
      repeat case_bool_decide; try ring.
      * exfalso. eapply Qclt_not_le; [eassumption|]. by apply Qclt_le_weak.
      * assert (paddingTop measured = paddingBottom measured) as ->; [|ring].
        apply Qcle_antisym; by apply Qcnot_lt_le.
  - reflexivity.
Qed.

(** C4: [getZoom] returns [null] for an absent step; it throws exactly when
    the step is present and either the step has no measured dimensions or
    the dimensions argument is absent, and then it returns no zoom. *)
Theorem getZoom_failure :
  (∀ dims : option Dimensions, getZoom None dims = Ok None) ∧
  (∀ (step : option Step) (dims : option Dimensions),
     (∃ message, getZoom step dims = Throw message) ↔
     (∃ present, step = Some present ∧
        (dimensions present = None ∨ dims = None))) ∧
  (∀ (step : Step) (dims : option Dimensions) (zoom : option number),
     dimensions step = None ∨ dims = None →
     getZoom (Some step) dims ≠ Ok zoom).
Proof.
  split; [done|split].
  - intros [step|] dims; cbn.
    + destruct dims as [dims|], (dimensions step) as [measured|] eqn:Hm;
        cbn; rewrite ?Hm; split.
      * intros [? [=]].
      * intros (present & [= <-] & [H|H]); congruence.
      * intros _. eauto.
      * eauto.
      * intros _. eauto.
      * eauto.
      * intros _. eauto.
      * eauto.
    + split; [intros [? [=]] | intros (? & [=] & _)].
  - intros step dims zoom Hmissing. cbn.
    destruct dims as [dims|], (dimensions step) as [measured|];
      try done; destruct Hmissing; done.
Qed.

(** ** focus and unfocus *)

(** C10: [unfocus] and [focus] are the same function: one linear opacity
    tween over the whole range, whatever the opacities and the progress. *)
Theorem unfocus_is_focus :
  unfocus = focus ∧
  ∀ fromOpacity toOpacity t : number,
    unfocus fromOpacity toOpacity t = focus fromOpacity toOpacity t ∧
    focus fromOpacity toOpacity t =
      {[ "opacity" := VNum (fromOpacity + (toOpacity - fromOpacity) * t) ]}.
Proof. done. Qed.

(** ** changeFocus *)

Lemma div_0_l (a : number) : 0 / a = 0.
Proof. unfold Qcdiv. ring. Qed.

Lemma minus_diag (a : number) : a - a = 0.
Proof. ring. Qed.

Lemma div_diag (a : number) : a ≠ 0 → a / a = 1.
Proof. intros. by field. Qed.

Lemma changeFocus_brighten (fromOpacity toOpacity t : number) :
  fromOpacity < toOpacity →
  changeFocus fromOpacity toOpacity t =
  {[ "opacity" := VNum
       (if bool_decide (t ≤ SCROLL) then fromOpacity
        else tween fromOpacity toOpacity
               (if bool_decide (ENTER < t) then 1
                else (t - SCROLL) / (ENTER - SCROLL)) linear) ]}.
Proof.
  intros Hdir. unfold changeFocus, lt. rewrite bool_decide_eq_true_2 by done.
  case_bool_decide as Ht.
  - destruct (Qclt_le_dec t EXIT) as [H1|H1]; [by run_chain|].
    destruct (Qclt_le_dec t SCROLL) as [H2|H2]; [by run_chain|].
    assert (t = SCROLL) as -> by (by apply Qcle_antisym).
    run_chain. rewrite singleton_over, minus_diag, div_0_l.
    by rewrite tween_linear_0.
  - apply Qcnot_le_lt in Ht.
    rewrite chain_fold. cbn [fold_breakpoints].
    rewrite (bool_decide_eq_false_2 (t < EXIT)) by qc_order.
    rewrite (bool_decide_eq_false_2 (t < SCROLL)) by qc_order.
    unfold merge_last_wins. rewrite singleton_over.
    by destruct (bool_decide (t < ENTER)).
Qed.

Lemma changeFocus_dim (fromOpacity toOpacity t : number) :
  toOpacity ≤ fromOpacity →
  changeFocus fromOpacity toOpacity t =
  {[ "opacity" := VNum
       (if bool_decide (EXIT < t) then toOpacity
        else tween fromOpacity toOpacity ((t - 0) / (EXIT - 0)) linear) ]}.
Proof.
  intros Hdir. unfold changeFocus, lt.
  rewrite bool_decide_eq_false_2 by (by apply Qcle_not_lt).
  rewrite chain_fold. cbn [fold_breakpoints].
  unfold merge_last_wins. rewrite singleton_over.
  destruct (decide (EXIT < t)) as [Ht|Ht].
  - rewrite !(bool_decide_eq_true_2 (EXIT < t)) by done.
    rewrite tween_linear_1.
    rewrite (bool_decide_eq_false_2 (t < EXIT)) by qc_order.
    by destruct (bool_decide (t < SCROLL)), (bool_decide (t < ENTER)).
  - rewrite !(bool_decide_eq_false_2 (EXIT < t)) by done.
    by destruct (bool_decide (t < EXIT)), (bool_decide (t < SCROLL)),
         (bool_decide (t < ENTER)).
Qed.

(** C7: [changeFocus] depends on the direction.  Brightening
    ([fromOpacity < toOpacity]): the opacity is [fromOpacity] for every
    [t ≤ 0.7] and is the linear tween over the ENTER phase for
    [0.7 < t ≤ 1], reaching [toOpacity] at 1.  Dimming
    ([fromOpacity ≥ toOpacity]): the opacity is the linear tween over the EXIT
    phase for [t ≤ 0.3] and is [toOpacity] for every [t > 0.3]. *)
Theorem changeFocus_direction (fromOpacity toOpacity t : number) :
  (fromOpacity < toOpacity →
     (t ≤ SCROLL →
        changeFocus fromOpacity toOpacity t = {[ "opacity" := VNum fromOpacity ]}) ∧
     (SCROLL < t → t ≤ ENTER →
        changeFocus fromOpacity toOpacity t =
        {[ "opacity" := VNum (tween fromOpacity toOpacity
                                ((t - SCROLL) / (ENTER - SCROLL)) linear) ]}) ∧
     changeFocus fromOpacity toOpacity ENTER = {[ "opacity" := VNum toOpacity ]}) ∧
  (toOpacity ≤ fromOpacity →
     (t ≤ EXIT →
        changeFocus fromOpacity toOpacity t =
        {[ "opacity" := VNum (tween fromOpacity toOpacity
                                ((t - 0) / (EXIT - 0)) linear) ]}) ∧
     changeFocus fromOpacity toOpacity 0 = {[ "opacity" := VNum fromOpacity ]} ∧
     (EXIT < t →
        changeFocus fromOpacity toOpacity t = {[ "opacity" := VNum toOpacity ]})).
Proof.
  split; intros Hdir.
  - split; [|split].
    + intros Ht. rewrite changeFocus_brighten by done.
      by rewrite bool_decide_eq_true_2.
    + intros Hlo Hhi. rewrite changeFocus_brighten by done.
      rewrite bool_decide_eq_false_2 by (by apply Qclt_not_le).
      by rewrite (bool_decide_eq_false_2 (ENTER < t)) by (by apply Qcle_not_lt).
    + rewrite changeFocus_brighten by done.
      rewrite bool_decide_eq_false_2 by qc_order.
      rewrite (bool_decide_eq_false_2 (ENTER < ENTER)) by qc_order.
      rewrite div_diag by qc_closed_neq.
      by rewrite tween_linear_1.
  - split; [|split].
    + intros Ht. rewrite changeFocus_dim by done.
      by rewrite bool_decide_eq_false_2 by (by apply Qcle_not_lt).
    + rewrite changeFocus_dim by done.
      rewrite bool_decide_eq_false_2 by qc_order.
      by rewrite minus_diag, div_0_l, tween_linear_0.
    + intros Ht. rewrite changeFocus_dim by done.
      by rewrite bool_decide_eq_true_2.
Qed.

(** ** The store: chain copies its template *)

Lemma heap_chain_loop_run (steps : list Segment) (t : number) (n : nat) :
  ∀ (i : nat) (style : positive) (prevTop : number)
    (h : gmap positive (gmap string value)) (props : Style),
    h !! style = Some props →
    ∃ h', Heap.chain_loop steps t n i style prevTop h = (style, h') ∧
          h' !! style = Some (chain_loop steps t n i props prevTop) ∧
          (∀ l, l ≠ style → is_Some (h !! l) → h' !! l = h !! l).
Proof.
  induction n as [|n IH]; intros i style prevTop h props Hstyle.
  - exists h. by repeat split.
  - cbn [Heap.chain_loop chain_loop].
    destruct (steps !! i) as [[top fn]|]; [|exists h; by repeat split].
    set (o := fresh (dom h)).
    assert (h !! o = None) as Hfresh
      by (apply not_elem_of_dom; apply is_fresh).
    assert (o ≠ style) as Hne by (intros ->; congruence).
    (* the store after the body of the loop, and the running style in it *)
    assert (∃ h1 props1,
      (match fn with
       | Some fn => o ← Heap.call fn (stept_of t prevTop top); Heap.assign style o
       | None => mret style
       end) h = (style, h1) ∧
      h1 !! style = Some props1 ∧
      props1 = match fn with
               | Some fn => Object_assign props (fn (stept_of t prevTop top))
               | None => props
               end ∧
      (∀ l, l ≠ style → is_Some (h !! l) → h1 !! l = h !! l))
      as (h1 & props1 & Hbody & Hstyle1 & -> & Hframe1).
    { destruct fn as [fn|].
      - eexists _, _. split; [|split; [|split; [reflexivity|]]].
        + unfold mbind, Heap.M_bind, Heap.call, Heap.new_object, Heap.assign.
          fold o. rewrite lookup_insert_ne by done. rewrite Hstyle.
          rewrite lookup_insert_eq. reflexivity.
        + by rewrite lookup_insert_eq.
        + intros l Hl [v Hv]. rewrite lookup_insert_ne by done.
          rewrite lookup_insert_ne by congruence. done.
      - exists h, props. by repeat split. }
    unfold mbind at 1. unfold Heap.M_bind at 1. rewrite Hbody.
    destruct (lt t top).
    + exists h1. by repeat split.
    + destruct (IH (S i) style top h1 _ Hstyle1) as (h2 & Hrun & Hstyle2 & Hframe2).
      exists h2. split; [done|]. split; [done|].
      intros l Hl Hsome. rewrite Hframe2; [by apply Hframe1|done|].
      by rewrite Hframe1.
Qed.

(** C9: every call of the animation returned by [chain] returns a newly
    allocated style object: its location was not in use before the call and
    differs from the location of the template; every object of the store,
    the template included, is unchanged by the call; and a later write to
    the returned object leaves the template unchanged. *)
Theorem chain_copies_start (steps : list Segment) (start : positive)
    (template : Style) (t : number) (h : gmap positive (gmap string value)) :
  h !! start = Some template →
  ∃ style h',
    Heap.chain steps start t h = (style, h') ∧
    h !! style = None ∧
    style ≠ start ∧
    h' !! style = Some (chain steps template t) ∧
    (∀ l, is_Some (h !! l) → h' !! l = h !! l) ∧
    h' !! start = Some template ∧
    (∀ key v, (Heap.set_property style key v h').2 !! start = Some template).
Proof.
  intros Hstart.
  set (style := fresh (dom h)).
  assert (h !! style = None) as Hfresh
    by (apply not_elem_of_dom; apply is_fresh).
  assert (style ≠ start) as Hne by (intros ->; congruence).
  set (h0 := <[style := Object_assign ∅ template]> (<[style := ∅]> h)).
  assert (h0 !! style = Some (Object_assign ∅ template)) as Hstyle0
    by apply lookup_insert_eq.
  destruct (heap_chain_loop_run steps t (length steps) 0 style 0 h0 _ Hstyle0)
    as (h' & Hrun & Hstyle & Hframe).
  assert (∀ l, is_Some (h !! l) → h' !! l = h !! l) as Hframe'.
  { intros l [v Hv].
    assert (l ≠ style) as Hl by (intros ->; congruence).
    rewrite Hframe; [|done|].
    - unfold h0. by rewrite !lookup_insert_ne.
    - unfold h0. rewrite !lookup_insert_ne by done. eauto. }
  exists style, h'. repeat split; try done.
  - unfold Heap.chain, mbind, Heap.M_bind, Heap.new_object, Heap.assign.
    fold style. rewrite lookup_insert_eq.
    rewrite lookup_insert_ne by done. rewrite Hstart. apply Hrun.
  - rewrite Hframe' by eauto. done.
  - intros key v. unfold Heap.set_property. cbn [snd].
    rewrite lookup_alter_ne by done. rewrite Hframe' by eauto. done.
Qed.

(** ** Animations built on the eased curve *)

Section Eased.

Variable easeInOutQuad : Easing.

(** The contract of an easing curve (section 4.1) at the end point. *)
Hypothesis ease_1 : easeInOutQuad 1 = 1.

Lemma tween_same (a t : number) (ease : Easing) : tween a a t ease = a.
Proof. unfold tween. ring. Qed.

Lemma tween_ease_1 (a b : number) : tween a b 1 easeInOutQuad = b.
Proof. unfold tween. rewrite ease_1. ring. Qed.

Lemma scrollToFocus_value (stepPair : Tuple Step) (dims : Dimensions)
    (t : number) :
  scrollToFocus easeInOutQuad stepPair (Some dims) t =
  Some (VNum
    (if bool_decide (t < EXIT) then scroll_target stepPair.1 dims
     else tween (scroll_target stepPair.1 dims) (scroll_target stepPair.2 dims)
            (if bool_decide (SCROLL < t) then 1
             else (t - EXIT) / (SCROLL - EXIT))
            easeInOutQuad)).
Proof.
  destruct stepPair as [prevStep nextStep].
  unfold scrollToFocus. cbn [spread fst snd].
  fold (scroll_target prevStep dims). fold (scroll_target nextStep dims).
  rewrite chain_fold. cbn [fold_breakpoints]. unfold merge_last_wins.
  destruct (bool_decide (t < EXIT)); [by rewrite lookup_singleton_eq|].
  rewrite singleton_over.
  destruct (bool_decide (t < SCROLL)), (bool_decide (t < ENTER));
    by rewrite lookup_singleton_eq.
Qed.

(** C5: without dimensions [scrollToFocus] is the constant 0.  With
    dimensions it stays at the scroll target of the previous side
    ([focusCenter * lineHeight], 0 for an absent side) while [t < 0.3], is
    the eased tween between the two targets, over the SCROLL phase, for
    [0.3 ≤ t ≤ 0.7], and stays at the target of the next side for
    [t > 0.7]; with equal focus centres on both sides it is constant. *)
Theorem scrollToFocus_phases (stepPair : Tuple Step) (dims : Dimensions)
    (t : number) :
  let prevCenter := scroll_target stepPair.1 dims in
  let nextCenter := scroll_target stepPair.2 dims in
  scrollToFocus easeInOutQuad stepPair None t = Some (VNum 0) ∧
  (t < EXIT →
     scrollToFocus easeInOutQuad stepPair (Some dims) t = Some (VNum prevCenter)) ∧
  (EXIT ≤ t → t ≤ SCROLL →
     scrollToFocus easeInOutQuad stepPair (Some dims) t =
     Some (VNum (tween prevCenter nextCenter
                   ((t - EXIT) / (SCROLL - EXIT)) easeInOutQuad))) ∧
  (SCROLL < t →
     scrollToFocus easeInOutQuad stepPair (Some dims) t = Some (VNum nextCenter)) ∧
  (∀ prevStep nextStep,
     stepPair = (Some prevStep, Some nextStep) →
     focusCenter prevStep = focusCenter nextStep →
     scrollToFocus easeInOutQuad stepPair (Some dims) t =
     Some (VNum (focusCenter prevStep * lineHeight dims))).
Proof.
  intros prevCenter nextCenter. split; [done|].
  rewrite scrollToFocus_value. fold prevCenter nextCenter.
  split; [|split; [|split]].
  - intros Ht. by rewrite bool_decide_eq_true_2.
  - intros Hlo Hhi.
    rewrite bool_decide_eq_false_2 by (by apply Qcle_not_lt).
    by rewrite (bool_decide_eq_false_2 (SCROLL < t)) by (by apply Qcle_not_lt).
  - intros Ht.
    rewrite bool_decide_eq_false_2 by qc_order.
    rewrite (bool_decide_eq_true_2 (SCROLL < t)) by done.
    by rewrite tween_ease_1.
  - intros prevStep nextStep -> Hsame.
    unfold prevCenter, nextCenter. cbn [fst snd scroll_target].
    rewrite <-Hsame, tween_same. by destruct (bool_decide (t < EXIT)).
Qed.

(** *** scaleToFocus *)

Lemma scaleToFocus_no_dimensions (stepPair : Tuple Step) :
  ∃ animation, scaleToFocus easeInOutQuad stepPair None = Ok animation ∧
               ∀ t, animation t = 1.
Proof. by eexists. Qed.

Lemma or_else_fallback (zoom : number) :
  toNumber (or_else None (Some zoom)) = zoom ∧
  toNumber (or_else (Some zoom) None) = zoom.
Proof.
  split; [done|]. unfold or_else, truthy.
  case_bool_decide as Hz; [done|]. cbn. by destruct (decide (zoom = 0)).
Qed.

(** At a deck boundary the zoom of the present side is held. *)
Lemma scaleToFocus_boundary (step : Step) (dims : Dimensions) (zoom : number) :
  getZoom (Some step) (Some dims) = Ok (Some zoom) →
  (∃ animation,
     scaleToFocus easeInOutQuad (None, Some step) (Some dims) = Ok animation ∧
     ∀ t, animation t = zoom) ∧
  (∃ animation,
     scaleToFocus easeInOutQuad (Some step, None) (Some dims) = Ok animation ∧
     ∀ t, animation t = zoom).
Proof.
  intros Hzoom. destruct (or_else_fallback zoom) as [Hl Hr].
  split; eexists; (split; [unfold scaleToFocus; cbn [spread];
    rewrite Hzoom; reflexivity|]); intros t; cbn beta.
  - rewrite Hl, Hr. apply tween_same.
  - rewrite Hl, Hr. apply tween_same.
Qed.

(** Between two steps whose zooms are not 0 the zoom is the eased tween. *)
Lemma scaleToFocus_between (prev next : Step) (dims : Dimensions)
    (prevZoom nextZoom : number) :
  getZoom (Some prev) (Some dims) = Ok (Some prevZoom) →
  getZoom (Some next) (Some dims) = Ok (Some nextZoom) →
  prevZoom ≠ 0 → nextZoom ≠ 0 →
  ∃ animation,
    scaleToFocus easeInOutQuad (Some prev, Some next) (Some dims) = Ok animation ∧
    ∀ t, animation t = tween prevZoom nextZoom t easeInOutQuad.
Proof.
  intros Hprev Hnext Hp Hn. eexists. split.
  - unfold scaleToFocus. cbn [spread]. rewrite Hprev, Hnext. reflexivity.
  - intros t. cbn beta. unfold or_else, truthy.
    by rewrite !bool_decide_eq_true_2.
Qed.

(** *** exitLine and enterLine *)

Lemma minus_distx : - distx = ofZ (-250).
Proof. apply Qc_is_canon. reflexivity. Qed.

(** C8: [exitLine(0, 1, 100)] has opacity 0 and offset 0 at [t = 0],
    opacity 1 and offset -250 at [t = 0.3], height 0 at [t = 0.7] and
    still at [t = 1]; [enterLine(0, 1, 100)] has height 0, opacity 0 and
    offset 250 at [t = 0], height 100 at [t = 0.7], opacity 1 and offset 0
    at [t = 1]. *)
Theorem exitLine_enterLine_keyframes :
  let exit := exitLine easeInOutQuad 0 1 (ofZ 100) in
  let enter := enterLine easeInOutQuad 0 1 (ofZ 100) in
  (exit 0 !! "opacity" = Some (VNum 0) ∧
   exit 0 !! "transform" = Some (VTranslateX 0)) ∧
  (exit (frac 3 10) !! "opacity" = Some (VNum 1) ∧
   exit (frac 3 10) !! "transform" = Some (VTranslateX (ofZ (-250)))) ∧
  exit (frac 7 10) !! "height" = Some (VNum 0) ∧
  exit 1 !! "height" = Some (VNum 0) ∧
  (enter 0 !! "height" = Some (VNum 0) ∧
   enter 0 !! "opacity" = Some (VNum 0) ∧
   enter 0 !! "transform" = Some (VTranslateX (ofZ 250))) ∧
  enter (frac 7 10) !! "height" = Some (VNum (ofZ 100)) ∧
  (enter 1 !! "opacity" = Some (VNum 1) ∧
   enter 1 !! "transform" = Some (VTranslateX 0)).
Proof.
  intros exit enter. unfold exit, enter, exitLine, enterLine.
  change (frac 3 10) with EXIT. change (frac 7 10) with SCROLL.
  change (ofZ 250) with distx.
  split_and!.
  - run_chain. unfold slideToLeft. simplify_map_eq.
    by rewrite minus_diag, div_0_l, tween_linear_0.
  - run_chain. unfold slideToLeft. simplify_map_eq.
    by rewrite minus_diag, div_0_l, tween_linear_0.
  - run_chain. unfold slideToLeft, shrinkHeight. simplify_map_eq.
    by rewrite tween_linear_1.
  - run_chain. unfold slideToLeft, shrinkHeight. simplify_map_eq.
    by rewrite tween_linear_1, minus_distx.
  - run_chain. unfold slideToLeft, shrinkHeight. simplify_map_eq.
    by rewrite tween_ease_1.
  - run_chain. unfold slideToLeft, shrinkHeight. simplify_map_eq.
    by rewrite tween_ease_1.
  - run_chain. by simplify_map_eq.
  - run_chain. by simplify_map_eq.
  - run_chain. by simplify_map_eq.
  - run_chain. unfold growHeight, slideFromRight. simplify_map_eq.
    by rewrite tween_ease_1.
  - run_chain. unfold growHeight, slideFromRight. simplify_map_eq.
    by rewrite tween_linear_1.
  - run_chain. unfold growHeight, slideFromRight. simplify_map_eq.
    by rewrite tween_linear_1.
Qed.

End Eased.

(** C6, at an input where one zoom is 0.  The previous step leaves no
    height (container 100, paddings 50), so its zoom is 0; the next step has
    zoom 1/2.  [prevZoom || nextZoom] takes the zoom 0 for an absent one, and
    the animation is the constant 1/2 instead of the tween from 0 to 1/2. *)
Theorem scaleToFocus_zero_zoom (easeInOutQuad : Easing) :
  let dims :=
    {| containerHeight := ofZ 100; containerWidth := ofZ 100;
       contentWidth := ofZ 50; lineHeight := ofZ 10 |} in
  let prev :=
    {| focusCenter := 0; focusCount := 1;
       dimensions := Some {| paddingTop := ofZ 50; paddingBottom := ofZ 50 |} |} in
  let next :=
    {| focusCenter := 0; focusCount := ofZ 20;
       dimensions := Some {| paddingTop := 0; paddingBottom := 0 |} |} in
  getZoom (Some prev) (Some dims) = Ok (Some 0) ∧
  getZoom (Some next) (Some dims) = Ok (Some (frac 1 2)) ∧
  ∃ animation,
    scaleToFocus easeInOutQuad (Some prev, Some next) (Some dims) = Ok animation ∧
    ∀ t, animation t = frac 1 2.
Proof.
  intros dims prev next.
  assert (getZoom (Some prev) (Some dims) = Ok (Some 0)) as Hprev
    by (cbn [getZoom prev dims dimensions]; do 2 f_equal;
        apply Qc_is_canon; reflexivity).
  assert (getZoom (Some next) (Some dims) = Ok (Some (frac 1 2))) as Hnext
    by (cbn [getZoom next dims dimensions]; do 2 f_equal;
        apply Qc_is_canon; reflexivity).
  split; [done|]. split; [done|].
  eexists. split.
  - unfold scaleToFocus. cbn [spread]. rewrite Hprev, Hnext. reflexivity.
  - intros t. cbn beta.
    change (or_else (Some 0) (Some (frac 1 2))) with (Some (frac 1 2)).
    change (or_else (Some (frac 1 2)) (Some 0)) with (Some (frac 1 2)).
    unfold toNumber, tween. ring.
Qed.

(** * Instances at concrete inputs *)

Lemma easeInOutQuad_std_0 : easeInOutQuad_std 0 = 0.
Proof. apply Qc_is_canon. reflexivity. Qed.

Lemma easeInOutQuad_std_1 : easeInOutQuad_std 1 = 1.
Proof. apply Qc_is_canon. reflexivity. Qed.

Lemma chain_is_short_circuiting_fold_witness :
  frac 1 4 < frac 1 2 ∧
  chain ([] ++ (frac 1 2, Some (fadeOut 0)) :: [(1, Some (fadeIn 0))]) ∅ (frac 1 4) =
  chain ([] ++ [(frac 1 2, Some (fadeOut 0))]) ∅ (frac 1 4).
Proof.
  split; [reflexivity|].
  apply (proj2 (proj2 chain_is_short_circuiting_fold)). reflexivity.
Defined.

Lemma chain_at_0_witness :
  valid_breakpoints
    [ (frac 1 2, Some (fadeOut 0)); (1, Some (fadeIn 0)) ] = true ∧
  chain [ (frac 1 2, Some (fadeOut 0)); (1, Some (fadeIn 0)) ] ∅ 0 =
  Object_assign ∅ (fadeOut 0 0).
Proof.
  split; [reflexivity|].
  apply (chain_at_0 (frac 1 2) (Some (fadeOut 0)) [(1, Some (fadeIn 0))] ∅).
  reflexivity.
Defined.

Lemma changeFocus_direction_witness :
  (0 < 1 ∧ frac 1 2 ≤ SCROLL ∧
   changeFocus 0 1 (frac 1 2) = {[ "opacity" := VNum 0 ]}) ∧
  (0 ≤ 1 ∧ EXIT < frac 1 2 ∧
   changeFocus 1 0 (frac 1 2) = {[ "opacity" := VNum 0 ]}).
Proof.
  split.
  - split; [reflexivity|]. split; [discriminate|].
    apply (proj1 (changeFocus_direction 0 1 (frac 1 2))); [reflexivity|discriminate].
  - split; [discriminate|]. split; [reflexivity|].
    apply (proj2 (changeFocus_direction 1 0 (frac 1 2))); [discriminate|reflexivity].
Defined.

Lemma scrollToFocus_phases_witness :
  easeInOutQuad_std 1 = 1 ∧ SCROLL < frac 9 10 ∧
  scrollToFocus easeInOutQuad_std
    (Some {| focusCenter := ofZ 3; focusCount := 1; dimensions := None |},
     Some {| focusCenter := ofZ 8; focusCount := 1; dimensions := None |})
    (Some {| containerHeight := ofZ 200; containerWidth := ofZ 100;
             contentWidth := ofZ 50; lineHeight := ofZ 10 |})
    (frac 9 10)
  = Some (VNum (ofZ 8 * ofZ 10)).
Proof.
  split; [apply easeInOutQuad_std_1|]. split; [reflexivity|].
  apply (scrollToFocus_phases easeInOutQuad_std easeInOutQuad_std_1
           (Some {| focusCenter := ofZ 3; focusCount := 1; dimensions := None |},
            Some {| focusCenter := ofZ 8; focusCount := 1; dimensions := None |})).
  reflexivity.
Defined.

Lemma exitLine_enterLine_keyframes_witness :
  easeInOutQuad_std 1 = 1 ∧
  exitLine easeInOutQuad_std 0 1 (ofZ 100) (frac 7 10) !! "height" = Some (VNum 0) ∧
  enterLine easeInOutQuad_std 0 1 (ofZ 100) (frac 7 10) !! "height"
    = Some (VNum (ofZ 100)).
Proof.
  pose proof (exitLine_enterLine_keyframes easeInOutQuad_std easeInOutQuad_std_1)
    as (_ & _ & Hexit & _ & _ & Henter & _).
  split; [apply easeInOutQuad_std_1|]. split; [apply Hexit | apply Henter].
Defined.

Lemma chain_copies_start_witness :
  let h : gmap positive (gmap string value) :=
    {[ 1%positive := {[ "opacity" := VNum 0 ]} ]} in
  h !! 1%positive = Some {[ "opacity" := VNum 0 ]} ∧
  ∃ style h',
    Heap.chain [ (frac 1 2, Some (fadeOut 0)); (1, Some (fadeIn 0)) ]
      1%positive (frac 1 4) h = (style, h') ∧
    h !! style = None ∧
    style ≠ 1%positive ∧
    h' !! style =
      Some (chain [ (frac 1 2, Some (fadeOut 0)); (1, Some (fadeIn 0)) ]
              {[ "opacity" := VNum 0 ]} (frac 1 4)) ∧
    (∀ l, is_Some (h !! l) → h' !! l = h !! l) ∧
    h' !! 1%positive = Some {[ "opacity" := VNum 0 ]} ∧
    (∀ key v, (Heap.set_property style key v h').2 !! 1%positive
              = Some {[ "opacity" := VNum 0 ]}).
Proof.
  intros h. split; [reflexivity|].
  apply (chain_copies_start _ 1%positive {[ "opacity" := VNum 0 ]} (frac 1 4) h).
  reflexivity.
Defined.

(** * The definitions at work *)

(** [fadeOutIn()] at progress 0 is fully opaque. *)
Example fadeOutIn_at_0 : fadeOutIn 0 0 !! "opacity" = Some (VNum 1).
Proof.
  unfold fadeOutIn. rewrite chain_fold. cbn [fold_breakpoints].
  rewrite (bool_decide_eq_true_2 (0 < frac 1 2)) by reflexivity.
  rewrite (bool_decide_eq_false_2 (frac 1 2 < 0)) by discriminate.
  unfold merge_last_wins, fadeOut. rewrite (right_id_L ∅ (∪)).
  rewrite lookup_singleton_eq, minus_diag, div_0_l. by rewrite tween_linear_0.
Qed.

(** Half way through the exit phase the leaving line is half faded and has
    slid 125 to the left; its height is not set yet. *)
Example exitLine_mid_exit :
  exitLine easeInOutQuad_std 1 0 (ofZ 100) (frac 3 20) =
  {[ "opacity" := VNum (frac 1 2); "transform" := VTranslateX (ofZ (-125)) ]}.
Proof.
  unfold exitLine. rewrite chain_fold. cbn [fold_breakpoints].
  rewrite (bool_decide_eq_true_2 (frac 3 20 < EXIT)) by reflexivity.
  rewrite (bool_decide_eq_false_2 (EXIT < frac 3 20)) by discriminate.
  unfold merge_last_wins, slideToLeft. rewrite (right_id_L ∅ (∪)).
  assert (tween 1 0 ((frac 3 20 - 0) / (EXIT - 0)) linear = frac 1 2) as ->
    by (apply Qc_is_canon; reflexivity).
  assert (tween 0 (- distx) ((frac 3 20 - 0) / (EXIT - 0)) linear = ofZ (-125)) as ->
    by (apply Qc_is_canon; reflexivity).
  reflexivity.
Qed.

(** In a store holding the template at location 1, the style returned by
    the chain lives at the next location. *)
Example heap_chain_returns_new_location :
  (Heap.chain [ (frac 1 2, Some (fadeOut 0)); (1, None) ] 1%positive 0
     {[ 1%positive := {[ "opacity" := VNum 0 ]} ]}).1 = 2%positive.
Proof. reflexivity. Qed.

(** The zoom that fits 30 focused lines of height 10 in a container of
    height 200 with paddings 10 and 25 is (200 - 50) / 300 = 1/2. *)
Example getZoom_fits_height :
  getZoom
    (Some {| focusCenter := ofZ 15; focusCount := ofZ 30;
             dimensions := Some {| paddingTop := ofZ 10; paddingBottom := ofZ 25 |} |})
    (Some {| containerHeight := ofZ 200; containerWidth := ofZ 100;
             contentWidth := ofZ 50; lineHeight := ofZ 10 |})
  = Ok (Some (frac 1 2)).
Proof. cbn [getZoom dimensions]. do 2 f_equal. apply Qc_is_canon. reflexivity. Qed.

(** * Further properties *)

(** ** chain on any breakpoint list *)

Lemma last_top_cons (prev top : number) (fn : option (number → Style))
    (segments : list Segment) :
  last_top prev ((top, fn) :: segments) = last_top top segments.
Proof.
  unfold last_top. rewrite fmap_cons, last_cons. cbn [fst].
  by destruct (list.last (fst <$> segments)).
Qed.

Lemma fold_breakpoints_in_progress (earlier later : list Segment)
    (top : number) (fn : option (number → Style)) (t : number) :
  Forall (λ segment : Segment, segment.1 ≤ t) earlier →
  t < top →
  ∀ (prev : number) (running : Style),
    strictly_increasing prev (earlier ++ (top, fn) :: later) = true →
    fold_breakpoints (earlier ++ (top, fn) :: later) t prev running =
    apply_segment fn
      ((t - last_top prev earlier) / (top - last_top prev earlier))
      (settled earlier running).
Proof.
  intros Hdone Ht.
  induction earlier as [|[top' fn'] earlier IH]; intros prev running Hincr.
  - cbn [app fold_breakpoints settled foldl]. unfold last_top. cbn.
    rewrite (bool_decide_eq_true_2 (t < top)) by done.
    rewrite (bool_decide_eq_false_2 (top < t))
      by (by apply Qcle_not_lt, Qclt_le_weak).
    unfold merge_last_wins. destruct fn; cbn; by rewrite ?Object_assign_union.
  - apply Forall_cons_1 in Hdone as [Hle Hdone]. cbn [fst] in Hle.
    cbn [app strictly_increasing] in Hincr.
    apply andb_prop in Hincr as [Hlt Hincr].
    unfold lt in Hlt. apply bool_decide_eq_true_1 in Hlt.
    cbn [app fold_breakpoints].
    rewrite (localT_done t prev top') by done.
    rewrite (bool_decide_eq_false_2 (t < top')) by (by apply Qcle_not_lt).
    rewrite IH by done. rewrite last_top_cons.
    cbn [settled foldl snd]. unfold merge_last_wins.
    destruct fn'; cbn [apply_segment]; by rewrite ?Object_assign_union.
Qed.

Lemma fold_breakpoints_complete (segments : list Segment) (t : number) :
  Forall (λ segment : Segment, segment.1 ≤ t) segments →
  ∀ (prev : number) (running : Style),
    strictly_increasing prev segments = true →
    fold_breakpoints segments t prev running = settled segments running.
Proof.
  intros Hdone.
  induction segments as [|[top fn] segments IH]; intros prev running Hincr.
  - done.
  - apply Forall_cons_1 in Hdone as [Hle Hdone]. cbn [fst] in Hle.
    cbn [strictly_increasing] in Hincr.
    apply andb_prop in Hincr as [Hlt Hincr].
    unfold lt in Hlt. apply bool_decide_eq_true_1 in Hlt.
    cbn [fold_breakpoints].
    rewrite (localT_done t prev top) by done.
    rewrite (bool_decide_eq_false_2 (t < top)) by (by apply Qcle_not_lt).
    rewrite IH by done.
    cbn [settled foldl snd]. unfold merge_last_wins.
    destruct fn; cbn [apply_segment]; by rewrite ?Object_assign_union.
Qed.

Lemma strictly_increasing_bounded (segments : list Segment) :
  ∀ (prev bound : number),
    strictly_increasing prev segments = true →
    last_top prev segments ≤ bound →
    Forall (λ segment : Segment, segment.1 ≤ bound) segments.
Proof.
  induction segments as [|[top fn] segments IH]; intros prev bound Hincr Hlast.
  - constructor.
  - cbn [strictly_increasing] in Hincr.
    apply andb_prop in Hincr as [_ Hincr].
    rewrite last_top_cons in Hlast.
    assert (Forall (λ segment : Segment, segment.1 ≤ bound) segments) as Hrest
      by (by eapply IH).
    constructor; [|done]. cbn [fst].
    clear IH Hrest. revert top Hincr Hlast.
    induction segments as [|[top' fn'] segments IH']; intros top Hincr Hlast.
    + done.
    + cbn [strictly_increasing] in Hincr.
      apply andb_prop in Hincr as [Hlt Hincr].
      unfold lt in Hlt. apply bool_decide_eq_true_1 in Hlt.
      rewrite last_top_cons in Hlast.
      eapply Qcle_trans; [by apply Qclt_le_weak|]. by apply IH'.
Qed.

(** X1: on a breakpoint list with strictly increasing thresholds, when all
    the segments before one are over ([threshold ≤ t]) and that one is not
    ([t < top]), the chain returns the earlier sub-animations at local
    progress 1, merged in order over the start style, and then the
    sub-animation in progress at [(t - prev) / (top - prev)], [prev] being
    the threshold before it (0 for the first segment); the later segments
    play no part. *)
Theorem chain_in_progress (earlier later : list Segment) (top : number)
    (fn : option (number → Style)) (start : Style) (t : number) :
  strictly_increasing 0 (earlier ++ (top, fn) :: later) = true →
  Forall (λ segment : Segment, segment.1 ≤ t) earlier →
  t < top →
  chain (earlier ++ (top, fn) :: later) start t =
  apply_segment fn
    ((t - last_top 0 earlier) / (top - last_top 0 earlier))
    (settled earlier start).
Proof.
  intros Hincr Hdone Ht. rewrite chain_fold.
  by apply fold_breakpoints_in_progress.
Qed.

(** X2: on a valid breakpoint list the chain has reached its final style at
    progress 1 and keeps it for every [t ≥ 1]: every sub-animation taken at
    local progress 1, merged in order over the start style. *)
Theorem chain_complete (steps : list Segment) (start : Style) (t : number) :
  valid_breakpoints steps = true →
  1 ≤ t →
  chain steps start t = settled steps start.
Proof.
  intros Hvalid Ht. unfold valid_breakpoints in Hvalid.
  apply andb_prop in Hvalid as [Hincr Hlast].
  apply bool_decide_eq_true_1 in Hlast.
  rewrite chain_fold. apply fold_breakpoints_complete; [|done].
  apply (strictly_increasing_bounded steps 0); [done|].
  unfold last_top. by rewrite Hlast.
Qed.

Lemma fold_breakpoints_keeps (segments : list Segment) (t : number)
    (key : string) :
  ∀ (prev : number) (running : Style),
    is_Some (running !! key) →
    is_Some (fold_breakpoints segments t prev running !! key).
Proof.
  induction segments as [|[top fn] segments IH]; intros prev running Hkey.
  - done.
  - cbn [fold_breakpoints]. unfold merge_last_wins.
    set (x := if bool_decide (top < t) then 1 else (t - prev) / (top - prev)).
    assert (is_Some (match fn with
                     | Some a => a x ∪ running
                     | None => running
                     end !! key)) as Hkey'.
    { destruct fn as [fn|]; [|done].
      rewrite lookup_union. destruct Hkey as [w ->].
      destruct (fn x !! key); by eexists. }
    destruct (bool_decide (t < top)); [done|]. by apply IH.
Qed.

Lemma fold_breakpoints_untouched (segments : list Segment) (t : number)
    (key : string) :
  (∀ top fn x, (top, Some fn) ∈ segments → fn x !! key = None) →
  ∀ (prev : number) (running : Style),
    fold_breakpoints segments t prev running !! key = running !! key.
Proof.
  induction segments as [|[top fn] segments IH]; intros Hfn prev running.
  - done.
  - cbn [fold_breakpoints]. unfold merge_last_wins.
    set (x := if bool_decide (top < t) then 1 else (t - prev) / (top - prev)).
    assert (match fn with
            | Some a => a x ∪ running
            | None => running
            end !! key = running !! key) as Hkey.
    { destruct fn as [fn|]; [|done].
      rewrite lookup_union, (Hfn top fn x) by left.
      by destruct (running !! key). }
    destruct (bool_decide (t < top)); [done|].
    rewrite IH; [done|]. intros top' fn' x' Hin. apply (Hfn top'). by right.
Qed.

(** X3: the chain never drops a property of its start style, whatever the
    breakpoint list and the progress; and a property that no sub-animation
    of the list ever sets comes out with the value it has in the start
    style. *)
Theorem chain_preserves_start (steps : list Segment) (start : Style)
    (t : number) (key : string) :
  (is_Some (start !! key) → is_Some (chain steps start t !! key)) ∧
  ((∀ top fn x, (top, Some fn) ∈ steps → fn x !! key = None) →
   chain steps start t !! key = start !! key).
Proof.
  rewrite chain_fold. split.
  - apply fold_breakpoints_keeps.
  - intros Hfn. by apply fold_breakpoints_untouched.
Qed.

(** ** tween *)

Lemma tween_le (a b t : number) (ease : Easing) :
  0 ≤ ease t → ease t ≤ 1 → a ≤ b →
  a ≤ tween a b t ease ∧ tween a b t ease ≤ b.
Proof.
  intros H0 H1 Hab. unfold tween.
  assert (0 ≤ b - a) as Hd by (by apply Qcle_minus_iff in Hab).
  split.
  - rewrite <-(Qcplus_0_r a) at 1. apply Qcplus_le_mono_l.
    by apply Qcmult_nonneg_nonneg.
  - replace b with (a + (b - a) * 1) at 2 by ring.
    apply Qcplus_le_mono_l. by apply Qcmult_le_mono_nonneg_l.
Qed.

Lemma tween_ge (a b t : number) (ease : Easing) :
  0 ≤ ease t → ease t ≤ 1 → b ≤ a →
  b ≤ tween a b t ease ∧ tween a b t ease ≤ a.
Proof.
  intros H0 H1 Hba.
  replace (tween a b t ease) with (tween b a t (λ x, 1 - ease x))
    by (unfold tween; ring).
  apply tween_le; [| |done].
  - by apply Qcle_minus_iff in H1.
  - apply Qcle_minus_iff.
    by replace (1 + - (1 - ease t)) with (ease t) by ring.
Qed.

(** X4: [tween] never leaves the interval of its two end values as long as
    the easing curve stays in [0, 1] at [t], whichever end is the larger;
    it is [from] where the curve is 0 and [to] where the curve is 1. *)
Theorem tween_between (from to t : number) (ease : Easing) :
  (ease t = 0 → tween from to t ease = from) ∧
  (ease t = 1 → tween from to t ease = to) ∧
  (0 ≤ ease t → ease t ≤ 1 →
     (from ≤ to → from ≤ tween from to t ease ∧ tween from to t ease ≤ to) ∧
     (to ≤ from → to ≤ tween from to t ease ∧ tween from to t ease ≤ from)).
Proof.
  split; [|split].
  - intros H. unfold tween. rewrite H. ring.
  - intros H. unfold tween. rewrite H. ring.
  - intros H0 H1. split; intros Hdir; [by apply tween_le | by apply tween_ge].
Qed.

(** ** The cross-fades *)

Lemma this_half : (frac 1 2 : Q) = (1 # 2)%Q.
Proof. reflexivity. Qed.

(** As [qc_order], with the breakpoint 1/2 of the cross-fades. *)
Ltac qc_order_half :=
  unfold Qclt, Qcle in *;
  rewrite ?this_half, ?this_0, ?this_1 in *;
  first [ lra | intro; lra ].

(** Linear order facts between numbers built with [+], [-] and constants,
    decided on the underlying fractions. *)
Ltac qc_linear :=
  unfold Qclt, Qcle in *;
  unfold Qcminus, Qcplus, Qcopp, frac, ofZ, Q2Qc in *; cbn [this] in *;
  rewrite ?Qred_correct in *;
  first [ lra | intro; lra ].

Ltac settle_tests_half :=
  repeat match goal with
  | |- context [if bool_decide (?top < ?t) then 1 else (?t - ?prev) / (?top - ?prev)] =>
      rewrite (localT_done t prev top) by qc_order_half
  | |- context [bool_decide (?a < ?b)] =>
      first [ rewrite (bool_decide_eq_true_2 (a < b)) by qc_order_half
            | rewrite (bool_decide_eq_false_2 (a < b)) by qc_order_half ]
  end.

Lemma fadeOutIn_first_half (offOpacity t : number) :
  t < frac 1 2 →
  fadeOutIn offOpacity t =
  {[ "opacity" := VNum (tween 1 offOpacity ((t - 0) / (frac 1 2 - 0)) linear) ]}.
Proof.
  intros Ht. unfold fadeOutIn. rewrite chain_fold. cbn [fold_breakpoints].
  settle_tests_half. unfold merge_last_wins, fadeOut.
  by rewrite (right_id_L ∅ (∪)).
Qed.

Lemma fadeOutIn_second_half (offOpacity t : number) :
  frac 1 2 ≤ t →
  fadeOutIn offOpacity t =
  {[ "opacity" := VNum (tween offOpacity 1
       (if bool_decide (1 < t) then 1 else (t - frac 1 2) / (1 - frac 1 2))
       linear) ]}.
Proof.
  intros Ht. unfold fadeOutIn. rewrite chain_fold. cbn [fold_breakpoints].
  rewrite (localT_done t 0 (frac 1 2)) by qc_order_half.
  rewrite (bool_decide_eq_false_2 (t < frac 1 2)) by qc_order_half.
  unfold merge_last_wins, fadeOut, fadeIn.
  rewrite (right_id_L ∅ (∪)), singleton_over.
  by destruct (bool_decide (t < 1)).
Qed.

Lemma halfFadeOut_first_half (offOpacity t : number) :
  t < frac 1 2 → halfFadeOut offOpacity t = fadeOutIn offOpacity t.
Proof.
  intros Ht. rewrite fadeOutIn_first_half by done.
  unfold halfFadeOut. rewrite chain_fold. cbn [fold_breakpoints].
  settle_tests_half. unfold merge_last_wins, fadeOut.
  by rewrite (right_id_L ∅ (∪)).
Qed.

Lemma halfFadeIn_second_half (offOpacity t : number) :
  frac 1 2 ≤ t → halfFadeIn offOpacity t = fadeOutIn offOpacity t.
Proof.
  intros Ht. rewrite fadeOutIn_second_half by done.
  unfold halfFadeIn. rewrite chain_fold. cbn [fold_breakpoints].
  rewrite (bool_decide_eq_false_2 (t < frac 1 2)) by qc_order_half.
  unfold merge_last_wins, fadeIn. rewrite singleton_over.
  by destruct (bool_decide (t < 1)).
Qed.

(** X5: [fadeOutIn] is [halfFadeOut] on the first half of the transition
    ([t < 0.5]) and [halfFadeIn] on the second ([t ≥ 0.5]); it starts fully
    opaque, is at [offOpacity] at the middle and fully opaque again from
    [t = 1] on. *)
Theorem fadeOutIn_halves (offOpacity t : number) :
  (t < frac 1 2 → fadeOutIn offOpacity t = halfFadeOut offOpacity t) ∧
  (frac 1 2 ≤ t → fadeOutIn offOpacity t = halfFadeIn offOpacity t) ∧
  fadeOutIn offOpacity 0 = {[ "opacity" := VNum 1 ]} ∧
  fadeOutIn offOpacity (frac 1 2) = {[ "opacity" := VNum offOpacity ]} ∧
  (1 ≤ t → fadeOutIn offOpacity t = {[ "opacity" := VNum 1 ]}).
Proof.
  split_and!.
  - intros Ht. by rewrite halfFadeOut_first_half.
  - intros Ht. by rewrite halfFadeIn_second_half.
  - rewrite fadeOutIn_first_half by reflexivity.
    by rewrite minus_diag, div_0_l, tween_linear_0.
  - rewrite fadeOutIn_second_half by discriminate.
    rewrite (bool_decide_eq_false_2 (1 < frac 1 2)) by discriminate.
    by rewrite minus_diag, div_0_l, tween_linear_0.
  - intros Ht. rewrite fadeOutIn_second_half by qc_order_half.
    destruct (decide (1 < t)) as [Hgt|Hgt].
    + rewrite bool_decide_eq_true_2 by done. by rewrite tween_linear_1.
    + rewrite bool_decide_eq_false_2 by done.
      assert (t = 1) as -> by (apply Qcle_antisym; [by apply Qcnot_lt_le|done]).
      rewrite div_diag by qc_closed_neq. by rewrite tween_linear_1.
Qed.

(** X6: before the middle of the transition [halfFadeIn] is fully
    transparent whatever [offOpacity] is, and at the middle it is at
    [offOpacity]: with a non-zero [offOpacity] the opacity jumps there.
    [halfFadeOut] stays at [offOpacity] from the middle on. *)
Theorem half_fades_hold (offOpacity t : number) :
  (t < frac 1 2 → halfFadeIn offOpacity t = {[ "opacity" := VNum 0 ]}) ∧
  halfFadeIn offOpacity (frac 1 2) = {[ "opacity" := VNum offOpacity ]} ∧
  (frac 1 2 ≤ t → halfFadeOut offOpacity t = {[ "opacity" := VNum offOpacity ]}).
Proof.
  split_and!.
  - intros Ht. unfold halfFadeIn. rewrite chain_fold. cbn [fold_breakpoints].
    by settle_tests_half.
  - rewrite halfFadeIn_second_half by discriminate.
    rewrite fadeOutIn_second_half by discriminate.
    rewrite (bool_decide_eq_false_2 (1 < frac 1 2)) by discriminate.
    by rewrite minus_diag, div_0_l, tween_linear_0.
  - intros Ht. unfold halfFadeOut. rewrite chain_fold. cbn [fold_breakpoints].
    rewrite (localT_done t 0 (frac 1 2)) by qc_order_half.
    rewrite (bool_decide_eq_false_2 (t < frac 1 2)) by qc_order_half.
    unfold merge_last_wins, fadeOut.
    rewrite (right_id_L ∅ (∪)), tween_linear_1.
    by destruct (bool_decide (t < 1)).
Qed.

(** X7: for [0 ≤ t ≤ 1] the cross-fade [fadeOutIn] is symmetric about the
    middle of the transition: the style at [1 - t] is the style at [t]. *)
Theorem fadeOutIn_symmetric (offOpacity t : number) :
  0 ≤ t → t ≤ 1 →
  fadeOutIn offOpacity (1 - t) = fadeOutIn offOpacity t.
Proof.
  intros H0 H1.
  assert (frac 1 2 - 0 ≠ 0) as Hh by qc_closed_neq.
  assert (1 - frac 1 2 = frac 1 2 - 0) as Hhalf by (apply Qc_is_canon; reflexivity).
  assert (1 = frac 1 2 + frac 1 2) as Hone by (apply Qc_is_canon; reflexivity).
  assert (∀ x, x ≤ 1 → bool_decide (1 < x) = false) as Hnot
    by (intros x Hx; by apply bool_decide_eq_false_2, Qcle_not_lt).
  destruct (Qclt_le_dec t (frac 1 2)) as [Hlt|Hge].
  - assert (frac 1 2 ≤ 1 - t) as Hge by (clear -Hlt; qc_linear).
    assert (1 - t ≤ 1) as Hle by (clear -H0; qc_linear).
    rewrite (fadeOutIn_second_half _ (1 - t)), (fadeOutIn_first_half _ t) by done.
    rewrite Hnot by done.
    do 2 f_equal. unfold tween, linear. rewrite Hhalf, Hone.
    field. qc_closed_neq.
  - destruct (Qcle_lt_or_eq _ _ Hge) as [Hgt| <-].
    + assert (1 - t < frac 1 2) as Hlt by (clear -Hgt; qc_linear).
      rewrite (fadeOutIn_first_half _ (1 - t)), (fadeOutIn_second_half _ t) by done.
      rewrite Hnot by done.
      do 2 f_equal. unfold tween, linear. rewrite Hhalf, Hone.
      field. qc_closed_neq.
    + by replace (1 - frac 1 2) with (frac 1 2)
        by (apply Qc_is_canon; reflexivity).
Qed.

(** ** changeFocus against focus *)

(** X8: [changeFocus] and [focus] start from the same style and end at the
    same style, in both directions; they differ only in when the opacity
    moves.  Between equal opacities [changeFocus] is constant. *)
Theorem changeFocus_ends_as_focus (fromOpacity toOpacity t : number) :
  changeFocus fromOpacity toOpacity 0 = focus fromOpacity toOpacity 0 ∧
  (1 ≤ t → changeFocus fromOpacity toOpacity t = focus fromOpacity toOpacity 1) ∧
  changeFocus fromOpacity fromOpacity t = {[ "opacity" := VNum fromOpacity ]}.
Proof.
  unfold focus. rewrite tween_linear_0, tween_linear_1.
  split_and!.
  - destruct (Qclt_le_dec fromOpacity toOpacity) as [Hdir|Hdir].
    + rewrite changeFocus_brighten by done.
      by rewrite bool_decide_eq_true_2 by discriminate.
    + rewrite changeFocus_dim by done.
      rewrite bool_decide_eq_false_2 by discriminate.
      by rewrite minus_diag, div_0_l, tween_linear_0.
  - intros Ht. destruct (Qclt_le_dec fromOpacity toOpacity) as [Hdir|Hdir].
    + rewrite changeFocus_brighten by done.
      rewrite bool_decide_eq_false_2 by qc_order.
      destruct (decide (ENTER < t)) as [Hgt|Hgt].
      * rewrite bool_decide_eq_true_2 by done. by rewrite tween_linear_1.
      * rewrite bool_decide_eq_false_2 by done.
        assert (t = ENTER) as ->
          by (apply Qcle_antisym; [by apply Qcnot_lt_le|done]).
        rewrite div_diag by qc_closed_neq. by rewrite tween_linear_1.
    + rewrite changeFocus_dim by done.
      by rewrite bool_decide_eq_true_2 by qc_order.
  - rewrite changeFocus_dim by apply Qcle_refl.
    unfold tween. destruct (bool_decide (EXIT < t)); [done|].
    do 2 f_equal. ring.
Qed.

(** ** Lines leaving and entering *)

Lemma style_three (h o x : value) :
  ({[ "height" := h ]} : Style) ∪ {[ "opacity" := o; "transform" := x ]} =
  {[ "height" := h; "opacity" := o; "transform" := x ]}.
Proof. by rewrite <-insert_union_singleton_l. Qed.

Lemma style_over_start (o x h o' x' h' : value) :
  ({[ "opacity" := o; "transform" := x ]} : Style)
    ∪ ({[ "height" := h ]} ∪ {[ "transform" := x'; "height" := h'; "opacity" := o' ]}) =
  {[ "height" := h; "opacity" := o; "transform" := x ]}.
Proof.
  apply map_eq. intros key. rewrite !lookup_union.
  destruct (decide (key = "opacity")) as [->|]; [by simplify_map_eq|].
  destruct (decide (key = "transform")) as [->|]; [by simplify_map_eq|].
  destruct (decide (key = "height")) as [->|]; by simplify_map_eq.
Qed.

Lemma style_height_over_start (h o' x' h' : value) :
  ({[ "height" := h ]} : Style)
    ∪ {[ "transform" := x'; "height" := h'; "opacity" := o' ]} =
  {[ "transform" := x'; "height" := h; "opacity" := o' ]}.
Proof.
  apply map_eq. intros key. rewrite !lookup_union.
  destruct (decide (key = "opacity")) as [->|]; [by simplify_map_eq|].
  destruct (decide (key = "transform")) as [->|]; [by simplify_map_eq|].
  destruct (decide (key = "height")) as [->|]; by simplify_map_eq.
Qed.

Section Lines.

Variable easeInOutQuad : Easing.
Hypothesis ease_1 : easeInOutQuad 1 = 1.

(** X9: a leaving line, for any opacities and line height.  During the
    EXIT phase ([t < 0.3]) its style has no [height] yet, only the fading
    opacity and the slide to the left.  During the SCROLL phase
    ([0.3 ≤ t < 0.7]) it is at [toOpacity], slid by the full distance, and
    its height shrinks.  From [t = 0.7] on it keeps height 0. *)
Theorem exitLine_phases (fromOpacity toOpacity height t : number) :
  (t < EXIT →
     exitLine easeInOutQuad fromOpacity toOpacity height t =
     {[ "opacity" := VNum (tween fromOpacity toOpacity ((t - 0) / (EXIT - 0)) linear);
        "transform" := VTranslateX (tween 0 (- distx) ((t - 0) / (EXIT - 0)) linear) ]}) ∧
  (EXIT ≤ t → t < SCROLL →
     exitLine easeInOutQuad fromOpacity toOpacity height t =
     {[ "height" := VNum (tween height 0 ((t - EXIT) / (SCROLL - EXIT)) easeInOutQuad);
        "opacity" := VNum toOpacity;
        "transform" := VTranslateX (- distx) ]}) ∧
  (SCROLL ≤ t →
     exitLine easeInOutQuad fromOpacity toOpacity height t =
     {[ "height" := VNum 0;
        "opacity" := VNum toOpacity;
        "transform" := VTranslateX (- distx) ]}).
Proof.
  unfold exitLine. split_and!.
  - intros Ht. run_chain. unfold slideToLeft. by rewrite (right_id_L ∅ (∪)).
  - intros Hlo Hhi. run_chain. unfold slideToLeft, shrinkHeight, outHeight.
    by rewrite (right_id_L ∅ (∪)), !tween_linear_1, style_three.
  - intros Ht. run_chain. unfold slideToLeft, shrinkHeight, outHeight.
    rewrite (right_id_L ∅ (∪)), !tween_linear_1, (tween_ease_1 _ ease_1).
    rewrite style_three. by destruct (bool_decide (t < ENTER)).
Qed.

(** X10: an entering line, for any opacities and line height.  During the
    EXIT phase it is exactly its initial style: displaced to the right,
    height 0, opacity 0 whatever [fromOpacity] is.  During the SCROLL phase
    only its height grows.  During the ENTER phase ([0.7 ≤ t ≤ 1]) it has
    its full height, slides in and fades from [fromOpacity] to [toOpacity];
    from [t = 1] on it is in place at [toOpacity]. *)
Theorem enterLine_phases (fromOpacity toOpacity height t : number) :
  (t < EXIT →
     enterLine easeInOutQuad fromOpacity toOpacity height t =
     {[ "transform" := VTranslateX distx; "height" := VNum 0; "opacity" := VNum 0 ]}) ∧
  (EXIT ≤ t → t < SCROLL →
     enterLine easeInOutQuad fromOpacity toOpacity height t =
     {[ "transform" := VTranslateX distx;
        "height" := VNum (tween 0 height ((t - EXIT) / (SCROLL - EXIT)) easeInOutQuad);
        "opacity" := VNum 0 ]}) ∧
  (SCROLL ≤ t → t ≤ ENTER →
     enterLine easeInOutQuad fromOpacity toOpacity height t =
     {[ "height" := VNum height;
        "opacity" := VNum (tween fromOpacity toOpacity
                             ((t - SCROLL) / (ENTER - SCROLL)) linear);
        "transform" := VTranslateX (tween distx 0
                             ((t - SCROLL) / (ENTER - SCROLL)) linear) ]}) ∧
  (ENTER ≤ t →
     enterLine easeInOutQuad fromOpacity toOpacity height t =
     {[ "height" := VNum height;
        "opacity" := VNum toOpacity;
        "transform" := VTranslateX 0 ]}).
Proof.
  unfold enterLine. split_and!.
  - intros Ht. by run_chain.
  - intros Hlo Hhi. run_chain. unfold growHeight, outHeight.
    by rewrite style_height_over_start.
  - intros Hlo Hhi. rewrite chain_fold. cbn [fold_breakpoints].
    rewrite (bool_decide_eq_false_2 (t < EXIT)) by qc_order.
    rewrite (localT_done t EXIT SCROLL) by qc_order.
    rewrite (bool_decide_eq_false_2 (t < SCROLL)) by qc_order.
    rewrite (bool_decide_eq_false_2 (ENTER < t)) by qc_order.
    unfold merge_last_wins, growHeight, slideFromRight, outHeight.
    rewrite (tween_ease_1 _ ease_1).
    destruct (bool_decide (t < ENTER)); by rewrite style_over_start.
  - intros Ht. run_chain. unfold growHeight, slideFromRight, outHeight.
    rewrite (tween_ease_1 _ ease_1), !tween_linear_1.
    by rewrite style_over_start.
Qed.

End Lines.

(** X11: from the end of the EXIT phase on, the height of a leaving line
    and the height of an entering line of the same line height add up to
    that line height, at every progress and for every easing curve. *)
Theorem exit_enter_heights (easeInOutQuad : Easing)
    (fromOpacity toOpacity fromOpacity' toOpacity' height t : number) :
  EXIT ≤ t →
  ∃ leaving entering,
    exitLine easeInOutQuad fromOpacity toOpacity height t !! "height"
      = Some (VNum leaving) ∧
    enterLine easeInOutQuad fromOpacity' toOpacity' height t !! "height"
      = Some (VNum entering) ∧
    leaving + entering = height.
Proof.
  intros Ht.
  set (x := if bool_decide (SCROLL < t) then 1 else (t - EXIT) / (SCROLL - EXIT)).
  exists (tween height outHeight x easeInOutQuad),
         (tween outHeight height x easeInOutQuad).
  split_and!.
  - unfold exitLine. rewrite chain_fold. cbn [fold_breakpoints].
    rewrite (localT_done t 0 EXIT) by qc_order.
    rewrite (bool_decide_eq_false_2 (t < EXIT)) by qc_order.
    fold x. unfold merge_last_wins, slideToLeft, shrinkHeight.
    destruct (bool_decide (t < SCROLL)), (bool_decide (t < ENTER));
      by simplify_map_eq.
  - unfold enterLine. rewrite chain_fold. cbn [fold_breakpoints].
    rewrite (bool_decide_eq_false_2 (t < EXIT)) by qc_order.
    fold x. unfold merge_last_wins, slideFromRight, growHeight.
    destruct (bool_decide (t < SCROLL)), (bool_decide (t < ENTER));
      by simplify_map_eq.
  - unfold tween, outHeight. ring.
Qed.

(** ** getZoom fits the content *)

Lemma le_div_iff (z a b : number) : 0 < b → z ≤ a / b ↔ z * b ≤ a.
Proof.
  intros Hb. rewrite (Qcmult_le_mono_pos_r z (a / b) b) by done.
  replace (a / b * b) with a; [done|].
  field. intros ->. by apply (Qclt_not_eq _ _ Hb).
Qed.

Lemma div_pos (a b : number) : 0 < a → 0 < b → 0 < a / b.
Proof. intros Ha Hb. apply Qcmult_pos_pos; [done | by apply Qcinv_pos]. Qed.

(** X12: when the focused content has a positive height and the content a
    positive width, the zoom returned by [getZoom] is the largest scale, not
    above 1, at which the focused lines fit the height left by the padding
    and the content fits 90% of the container width; so it is 1 exactly
    when the content fits unscaled. *)
Theorem getZoom_largest_fit (center count : number) (measured : StepDimensions)
    (dims : Dimensions) :
  let step :=
    {| focusCenter := center; focusCount := count; dimensions := Some measured |} in
  let contentHeight := count * lineHeight dims in
  let availableHeight :=
    containerHeight dims
    - Math_max (paddingBottom measured) (paddingTop measured) * ofZ 2 in
  let fits (scale : number) :=
    scale * contentHeight ≤ availableHeight ∧
    scale * contentWidth dims ≤ frac 9 10 * containerWidth dims ∧
    scale ≤ 1 in
  0 < contentHeight → 0 < contentWidth dims →
  ∃ zoom,
    getZoom (Some step) (Some dims) = Ok (Some zoom) ∧
    fits zoom ∧
    (∀ scale, fits scale → scale ≤ zoom) ∧
    (zoom = 1 ↔ fits 1).
Proof.
  intros step contentHeight availableHeight fits Hheight Hwidth.
  eexists. split; [reflexivity|].
  set (yZoom := availableHeight / contentHeight).
  set (xZoom := frac 9 10 * containerWidth dims / contentWidth dims).
  destruct (Math_min3_least yZoom 1 xZoom) as (Hy & H1 & Hx & Hchoice).
  assert (fits (Math_min3 yZoom 1 xZoom)) as Hfits.
  { split_and!; [by apply le_div_iff | by apply le_div_iff | done]. }
  assert (∀ scale, fits scale → scale ≤ Math_min3 yZoom 1 xZoom) as Hmax.
  { intros scale (Hsy & Hsx & Hs1).
    destruct Hchoice as [-> | [-> | ->]]; [by apply le_div_iff | done | by apply le_div_iff]. }
  split_and!; [done..|]. split.
  - intros <-. done.
  - intros Hone. apply Qcle_antisym; [done | by apply Hmax].
Qed.

(** X13: with a positive content height and width, a container wider than
    0 and taller than twice the larger padding, the zoom is positive (and at
    most 1). *)
Theorem getZoom_positive (center count : number) (measured : StepDimensions)
    (dims : Dimensions) :
  0 < count * lineHeight dims →
  0 < contentWidth dims →
  0 < containerWidth dims →
  Math_max (paddingBottom measured) (paddingTop measured) * ofZ 2
    < containerHeight dims →
  ∃ zoom,
    getZoom
      (Some {| focusCenter := center; focusCount := count;
               dimensions := Some measured |})
      (Some dims) = Ok (Some zoom) ∧
    0 < zoom ∧ zoom ≤ 1.
Proof.
  intros Hheight Hwidth Hcontainer Hpadding.
  eexists. split; [reflexivity|]. cbn [focusCount].
  match goal with |- 0 < Math_min3 ?y 1 ?x ∧ _ =>
    destruct (Math_min3_least y 1 x) as (_ & H1 & _ & Hchoice) end.
  split; [|done].
  destruct Hchoice as [-> | [-> | ->]].
  - apply div_pos; [|done]. by apply Qclt_minus_iff in Hpadding.
  - reflexivity.
  - apply div_pos; [|done]. by apply Qcmult_pos_pos.
Qed.

(** ** scaleToFocus *)



(** X14: [scaleToFocus] throws exactly when dimensions are given and a step
    that is present, on either side of the pair, has no measured
    dimensions; without dimensions it never looks at the steps. *)
Theorem scaleToFocus_throws (easeInOutQuad : Easing) (prev next : option Step)
    (dims : option Dimensions) :
  (∃ message, scaleToFocus easeInOutQuad (prev, next) dims = Throw message) ↔
  is_Some dims ∧
  ((∃ step, prev = Some step ∧ dimensions step = None) ∨
   (∃ step, next = Some step ∧ dimensions step = None)).
Proof.
  destruct dims as [dims|]; cbn.
  2:{ split; [intros [? [=]] | intros [[? [=]] _]]. }
  destruct prev as [prev|]; [destruct (dimensions prev) as [mp|] eqn:Hp|];
    (destruct next as [next|]; [destruct (dimensions next) as [mn|] eqn:Hn|]);
    cbn; rewrite ?Hp, ?Hn; cbn; rewrite ?Hn; cbn;
    (split; [intros [message Hthrow]; try discriminate Hthrow;
             (split; [by eexists|]); eauto
            | intros [_ [(step & [= <-] & Hnone)|(step & [= <-] & Hnone)]];
              try congruence; eauto]).
Qed.


(** ** scrollToFocus *)

Lemma div_le_iff (z a b : number) : 0 < b → a / b ≤ z ↔ a ≤ z * b.
Proof.
  intros Hb. rewrite (Qcmult_le_mono_pos_r (a / b) z b) by done.
  replace (a / b * b) with a; [done|].
  field. intros ->. by apply (Qclt_not_eq _ _ Hb).
Qed.

Lemma scroll_progress_in_range (t : number) :
  EXIT ≤ t →
  0 ≤ (if bool_decide (SCROLL < t) then 1 else (t - EXIT) / (SCROLL - EXIT)) ∧
  (if bool_decide (SCROLL < t) then 1 else (t - EXIT) / (SCROLL - EXIT)) ≤ 1.
Proof.
  intros Hlo. case_bool_decide as Hhi; [split; discriminate|].
  apply Qcnot_lt_le in Hhi.
  assert (0 < SCROLL - EXIT) as Hpos by reflexivity.
  split.
  - apply le_div_iff; [done|]. rewrite Qcmult_0_l.
    by apply Qcle_minus_iff in Hlo.
  - apply div_le_iff; [done|]. rewrite Qcmult_1_l.
    by apply Qcplus_le_mono_r.
Qed.

(** X16: with dimensions, the scroll position returned by [scrollToFocus]
    is a number that stays between the scroll targets of the two sides, at
    every progress, for every easing curve that maps [0, 1] into [0, 1]. *)
Theorem scrollToFocus_between (easeInOutQuad : Easing) (stepPair : Tuple Step)
    (dims : Dimensions) (t : number) :
  (∀ x, 0 ≤ x → x ≤ 1 → 0 ≤ easeInOutQuad x ∧ easeInOutQuad x ≤ 1) →
  let prevCenter := scroll_target stepPair.1 dims in
  let nextCenter := scroll_target stepPair.2 dims in
  ∃ scroll,
    scrollToFocus easeInOutQuad stepPair (Some dims) t = Some (VNum scroll) ∧
    (prevCenter ≤ nextCenter → prevCenter ≤ scroll ∧ scroll ≤ nextCenter) ∧
    (nextCenter ≤ prevCenter → nextCenter ≤ scroll ∧ scroll ≤ prevCenter).
Proof.
  intros Hease prevCenter nextCenter.
  eexists. split; [apply scrollToFocus_value|]. fold prevCenter nextCenter.
  case_bool_decide as Ht.
  - split; intros Hdir; split; done || apply Qcle_refl.
  - apply Qcnot_lt_le in Ht.
    destruct (scroll_progress_in_range t Ht) as [Hx0 Hx1].
    destruct (Hease _ Hx0 Hx1) as [H0 H1].
    split; intros Hdir; [by apply tween_le | by apply tween_ge].
Qed.

(** ** scaleToFocus at the ends of the deck *)

(** X18: for a measured step and given dimensions, [scaleToFocus] on a pair
    whose other side is absent succeeds and returns the constant animation
    at the zoom of that step, on whichever side the step is, and also when
    that zoom is 0. *)
Theorem scaleToFocus_holds_at_boundary (easeInOutQuad : Easing) (step : Step)
    (measured : StepDimensions) (dims : Dimensions) :
  dimensions step = Some measured →
  ∃ zoom,
    getZoom (Some step) (Some dims) = Ok (Some zoom) ∧
    (∃ animation,
       scaleToFocus easeInOutQuad (None, Some step) (Some dims) = Ok animation ∧
       ∀ t, animation t = zoom) ∧
    (∃ animation,
       scaleToFocus easeInOutQuad (Some step, None) (Some dims) = Ok animation ∧
       ∀ t, animation t = zoom).
Proof.
  intros Hmeasured.
  assert (∃ zoom, getZoom (Some step) (Some dims) = Ok (Some zoom))
    as [zoom Hzoom] by (cbn; rewrite Hmeasured; by eexists).
  exists zoom. split; [done|]. by apply scaleToFocus_boundary.
Qed.

(** X19: between two steps whose zooms are both different from 0,
    [scaleToFocus] returns the eased tween from the zoom of the previous
    step to the zoom of the next one; it starts at the first where the
    curve is 0 and arrives at the second where the curve is 1. *)
Theorem scaleToFocus_tweens_zooms (easeInOutQuad : Easing) (prev next : Step)
    (dims : Dimensions) (prevZoom nextZoom : number) :
  getZoom (Some prev) (Some dims) = Ok (Some prevZoom) →
  getZoom (Some next) (Some dims) = Ok (Some nextZoom) →
  prevZoom ≠ 0 → nextZoom ≠ 0 →
  ∃ animation,
    scaleToFocus easeInOutQuad (Some prev, Some next) (Some dims) = Ok animation ∧
    (∀ t, animation t = tween prevZoom nextZoom t easeInOutQuad) ∧
    (∀ t, easeInOutQuad t = 0 → animation t = prevZoom) ∧
    (∀ t, easeInOutQuad t = 1 → animation t = nextZoom).
Proof.
  intros Hprev Hnext Hp Hn.
  destruct (scaleToFocus_between easeInOutQuad prev next dims _ _ Hprev Hnext Hp Hn)
    as (animation & Hok & Hvalue).
  exists animation. split_and!; [done..| |].
  - intros t Ht. rewrite Hvalue. unfold tween. rewrite Ht. ring.
  - intros t Ht. rewrite Hvalue. unfold tween. rewrite Ht. ring.
Qed.

(** ** Successive calls in the store *)

Lemma heap_chain_run (steps : list Segment) (start : positive)
    (template : Style) (t : number) (h : gmap positive (gmap string value)) :
  h !! start = Some template →
  ∃ style h',
    Heap.chain steps start t h = (style, h') ∧
    h !! style = None ∧
    h' !! style = Some (chain steps template t) ∧
    (∀ l, is_Some (h !! l) → h' !! l = h !! l).
Proof.
  intros Hstart.
  set (style := fresh (dom h)).
  assert (h !! style = None) as Hfresh
    by (apply not_elem_of_dom; apply is_fresh).
  assert (style ≠ start) as Hne by (intros ->; congruence).
  set (h0 := <[style := Object_assign ∅ template]> (<[style := ∅]> h)).
  assert (h0 !! style = Some (Object_assign ∅ template)) as Hstyle0
    by apply lookup_insert_eq.
  destruct (heap_chain_loop_run steps t (length steps) 0 style 0 h0 _ Hstyle0)
    as (h' & Hrun & Hstyle & Hframe).
  exists style, h'. split_and!; [|done..|].
  - unfold Heap.chain, mbind, Heap.M_bind, Heap.new_object, Heap.assign.
    fold style. rewrite lookup_insert_eq.
    rewrite lookup_insert_ne by done. rewrite Hstart. apply Hrun.
  - intros l [v Hv].
    assert (l ≠ style) as Hl by (intros ->; congruence).
    rewrite Hframe; unfold h0; rewrite ?lookup_insert_ne by done; eauto.
Qed.

(** X17: two successive calls of the animation returned by [chain], at any
    two progress values, return two different objects; after both calls each
    object holds the style of its own call, as if the other call had not
    happened, and the template is unchanged. *)
Theorem chain_calls_independent (steps : list Segment) (start : positive)
    (template : Style) (t1 t2 : number) (h : gmap positive (gmap string value)) :
  h !! start = Some template →
  ∃ style1 h1 style2 h2,
    Heap.chain steps start t1 h = (style1, h1) ∧
    Heap.chain steps start t2 h1 = (style2, h2) ∧
    style1 ≠ style2 ∧
    h2 !! style1 = Some (chain steps template t1) ∧
    h2 !! style2 = Some (chain steps template t2) ∧
    h2 !! start = Some template.
Proof.
  intros Hstart.
  destruct (heap_chain_run steps start template t1 h Hstart)
    as (style1 & h1 & Hrun1 & Hfresh1 & Hstyle1 & Hframe1).
  assert (h1 !! start = Some template) as Hstart1
    by (rewrite Hframe1 by eauto; done).
  destruct (heap_chain_run steps start template t2 h1 Hstart1)
    as (style2 & h2 & Hrun2 & Hfresh2 & Hstyle2 & Hframe2).
  exists style1, h1, style2, h2. split_and!; [done..| | |done|].
  - intros ->. congruence.
  - rewrite Hframe2 by eauto. done.
  - rewrite Hframe2 by eauto. done.
Qed.

(** * Further instances at concrete inputs *)

Lemma chain_in_progress_witness :
  strictly_increasing 0
    ([(EXIT, None)] ++ (SCROLL, Some (fadeOut 0)) :: [(ENTER, None)]) = true ∧
  Forall (λ segment : Segment, segment.1 ≤ frac 1 2) [(EXIT, None)] ∧
  frac 1 2 < SCROLL ∧
  chain ([(EXIT, None)] ++ (SCROLL, Some (fadeOut 0)) :: [(ENTER, None)])
    ∅ (frac 1 2) =
  apply_segment (Some (fadeOut 0))
    ((frac 1 2 - last_top 0 [(EXIT, None)]) / (SCROLL - last_top 0 [(EXIT, None)]))
    (settled [(EXIT, None)] ∅).
Proof.
  assert (Forall (λ segment : Segment, segment.1 ≤ frac 1 2) [(EXIT, None)])
    as Hdone by (repeat constructor; discriminate).
  split; [reflexivity|]. split; [exact Hdone|]. split; [reflexivity|].
  apply (chain_in_progress [(EXIT, None)] [(ENTER, None)] SCROLL
           (Some (fadeOut 0)) ∅ (frac 1 2));
    [reflexivity | exact Hdone | reflexivity].
Defined.

Lemma chain_complete_witness :
  valid_breakpoints
    [ (frac 1 2, Some (fadeOut 0)); (1, Some (fadeIn 0)) ] = true ∧
  1 ≤ ofZ 2 ∧
  chain [ (frac 1 2, Some (fadeOut 0)); (1, Some (fadeIn 0)) ] ∅ (ofZ 2) =
  settled [ (frac 1 2, Some (fadeOut 0)); (1, Some (fadeIn 0)) ] ∅.
Proof.
  split; [reflexivity|]. split; [discriminate|].
  apply chain_complete; [reflexivity | discriminate].
Defined.

Lemma chain_preserves_start_witness :
  is_Some (({[ "scroll" := VNum 0 ]} : Style) !! "scroll") ∧
  is_Some (chain [ (frac 1 2, Some (fadeOut 0)); (1, Some (fadeIn 0)) ]
             {[ "scroll" := VNum 0 ]} (frac 1 4) !! "scroll").
Proof.
  assert (is_Some (({[ "scroll" := VNum 0 ]} : Style) !! "scroll")) as Hkey
    by (by eexists).
  split; [exact Hkey|].
  exact (proj1 (chain_preserves_start _ _ (frac 1 4) "scroll") Hkey).
Defined.

Lemma tween_between_witness :
  0 ≤ easeInOutQuad_std (frac 1 4) ∧ easeInOutQuad_std (frac 1 4) ≤ 1 ∧
  (0 : Qc) ≤ ofZ 8 ∧
  0 ≤ tween 0 (ofZ 8) (frac 1 4) easeInOutQuad_std ∧
  tween 0 (ofZ 8) (frac 1 4) easeInOutQuad_std ≤ ofZ 8.
Proof.
  split; [discriminate|]. split; [discriminate|]. split; [discriminate|].
  apply (proj2 (proj2 (tween_between 0 (ofZ 8) (frac 1 4) easeInOutQuad_std)));
    discriminate.
Defined.

Lemma fadeOutIn_halves_witness :
  frac 1 4 < frac 1 2 ∧
  fadeOutIn 0 (frac 1 4) = halfFadeOut 0 (frac 1 4).
Proof.
  split; [reflexivity|].
  apply (proj1 (fadeOutIn_halves 0 (frac 1 4))). reflexivity.
Defined.

Lemma half_fades_hold_witness :
  frac 1 4 < frac 1 2 ∧
  halfFadeIn (frac 1 2) (frac 1 4) = {[ "opacity" := VNum 0 ]}.
Proof.
  split; [reflexivity|].
  apply (proj1 (half_fades_hold (frac 1 2) (frac 1 4))). reflexivity.
Defined.

Lemma fadeOutIn_symmetric_witness :
  0 ≤ frac 1 4 ∧ frac 1 4 ≤ 1 ∧
  fadeOutIn 0 (1 - frac 1 4) = fadeOutIn 0 (frac 1 4).
Proof.
  split; [discriminate|]. split; [discriminate|].
  apply fadeOutIn_symmetric; discriminate.
Defined.

Lemma changeFocus_ends_as_focus_witness :
  1 ≤ ofZ 2 ∧ changeFocus 0 1 (ofZ 2) = focus 0 1 1.
Proof.
  split; [discriminate|].
  apply (proj1 (proj2 (changeFocus_ends_as_focus 0 1 (ofZ 2)))). discriminate.
Defined.

Lemma exitLine_phases_witness :
  easeInOutQuad_std 1 = 1 ∧ SCROLL ≤ frac 9 10 ∧
  exitLine easeInOutQuad_std 1 0 (ofZ 20) (frac 9 10) =
  {[ "height" := VNum 0; "opacity" := VNum 0;
     "transform" := VTranslateX (- distx) ]}.
Proof.
  split; [apply easeInOutQuad_std_1|]. split; [discriminate|].
  apply (proj2 (proj2 (exitLine_phases easeInOutQuad_std easeInOutQuad_std_1
                         1 0 (ofZ 20) (frac 9 10)))).
  discriminate.
Defined.

Lemma enterLine_phases_witness :
  easeInOutQuad_std 1 = 1 ∧ frac 1 10 < EXIT ∧
  enterLine easeInOutQuad_std (frac 1 2) 1 (ofZ 20) (frac 1 10) =
  {[ "transform" := VTranslateX distx; "height" := VNum 0; "opacity" := VNum 0 ]}.
Proof.
  split; [apply easeInOutQuad_std_1|]. split; [reflexivity|].
  apply (proj1 (enterLine_phases easeInOutQuad_std easeInOutQuad_std_1
                  (frac 1 2) 1 (ofZ 20) (frac 1 10))).
  reflexivity.
Defined.

Lemma exit_enter_heights_witness :
  EXIT ≤ frac 1 2 ∧
  ∃ leaving entering,
    exitLine easeInOutQuad_std 1 0 (ofZ 20) (frac 1 2) !! "height"
      = Some (VNum leaving) ∧
    enterLine easeInOutQuad_std 0 1 (ofZ 20) (frac 1 2) !! "height"
      = Some (VNum entering) ∧
    leaving + entering = ofZ 20.
Proof.
  split; [discriminate|].
  apply (exit_enter_heights easeInOutQuad_std 1 0 0 1 (ofZ 20) (frac 1 2)).
  discriminate.
Defined.

Lemma getZoom_largest_fit_witness :
  let dims :=
    {| containerHeight := ofZ 200; containerWidth := ofZ 100;
       contentWidth := ofZ 50; lineHeight := ofZ 10 |} in
  let measured := {| paddingTop := ofZ 10; paddingBottom := ofZ 25 |} in
  0 < ofZ 30 * lineHeight dims ∧ 0 < contentWidth dims ∧
  ∃ zoom,
    getZoom
      (Some {| focusCenter := 0; focusCount := ofZ 30;
               dimensions := Some measured |})
      (Some dims) = Ok (Some zoom) ∧
    zoom * (ofZ 30 * lineHeight dims)
      ≤ containerHeight dims
        - Math_max (paddingBottom measured) (paddingTop measured) * ofZ 2.
Proof.
  intros dims measured.
  split; [reflexivity|]. split; [reflexivity|].
  destruct (getZoom_largest_fit 0 (ofZ 30) measured dims)
    as (zoom & Hzoom & (Hfit & _) & _); [reflexivity..|].
  by exists zoom.
Defined.

Lemma getZoom_positive_witness :
  let dims :=
    {| containerHeight := ofZ 200; containerWidth := ofZ 100;
       contentWidth := ofZ 50; lineHeight := ofZ 10 |} in
  let measured := {| paddingTop := ofZ 10; paddingBottom := ofZ 25 |} in
  0 < ofZ 30 * lineHeight dims ∧ 0 < contentWidth dims ∧
  0 < containerWidth dims ∧
  Math_max (paddingBottom measured) (paddingTop measured) * ofZ 2
    < containerHeight dims ∧
  ∃ zoom,
    getZoom
      (Some {| focusCenter := 0; focusCount := ofZ 30;
               dimensions := Some measured |})
      (Some dims) = Ok (Some zoom) ∧
    0 < zoom ∧ zoom ≤ 1.
Proof.
  intros dims measured.
  split; [reflexivity|]. split; [reflexivity|]. split; [reflexivity|].
  split; [reflexivity|].
  apply (getZoom_positive 0 (ofZ 30) measured dims); reflexivity.
Defined.


Lemma linear_in_range (x : number) : 0 ≤ x → x ≤ 1 → 0 ≤ linear x ∧ linear x ≤ 1.
Proof. by intros H0 H1. Qed.

Lemma scrollToFocus_between_witness :
  (∀ x, 0 ≤ x → x ≤ 1 → 0 ≤ linear x ∧ linear x ≤ 1) ∧
  ∃ scroll,
    scrollToFocus linear
      (Some {| focusCenter := ofZ 3; focusCount := 1; dimensions := None |},
       Some {| focusCenter := ofZ 8; focusCount := 1; dimensions := None |})
      (Some {| containerHeight := ofZ 200; containerWidth := ofZ 100;
               contentWidth := ofZ 50; lineHeight := ofZ 10 |})
      (frac 1 2) = Some (VNum scroll) ∧
    ofZ 3 * ofZ 10 ≤ scroll ∧ scroll ≤ ofZ 8 * ofZ 10.
Proof.
  split; [exact linear_in_range|].
  destruct (scrollToFocus_between linear
    (Some {| focusCenter := ofZ 3; focusCount := 1; dimensions := None |},
     Some {| focusCenter := ofZ 8; focusCount := 1; dimensions := None |})
    {| containerHeight := ofZ 200; containerWidth := ofZ 100;
       contentWidth := ofZ 50; lineHeight := ofZ 10 |}
    (frac 1 2) linear_in_range) as (scroll & Hscroll & Hup & _).
  exists scroll. split; [exact Hscroll|]. apply Hup. discriminate.
Defined.

Lemma chain_calls_independent_witness :
  let h : gmap positive (gmap string value) :=
    {[ 1%positive := {[ "opacity" := VNum 0 ]} ]} in
  let steps : list Segment :=
    [ (frac 1 2, Some (fadeOut 0)); (1, Some (fadeIn 0)) ] in
  h !! 1%positive = Some {[ "opacity" := VNum 0 ]} ∧
  ∃ style1 h1 style2 h2,
    Heap.chain steps 1%positive (frac 3 4) h = (style1, h1) ∧
    Heap.chain steps 1%positive (frac 1 4) h1 = (style2, h2) ∧
    style1 ≠ style2 ∧
    h2 !! style1 = Some (chain steps {[ "opacity" := VNum 0 ]} (frac 3 4)) ∧
    h2 !! style2 = Some (chain steps {[ "opacity" := VNum 0 ]} (frac 1 4)) ∧
    h2 !! 1%positive = Some {[ "opacity" := VNum 0 ]}.
Proof.
  intros h steps. split; [reflexivity|].
  apply (chain_calls_independent steps 1%positive {[ "opacity" := VNum 0 ]}
           (frac 3 4) (frac 1 4) h).
  reflexivity.
Defined.

Lemma scaleToFocus_holds_at_boundary_witness :
  let step :=
    {| focusCenter := 0; focusCount := 1;
       dimensions := Some {| paddingTop := ofZ 50; paddingBottom := ofZ 50 |} |} in
  let dims :=
    {| containerHeight := ofZ 100; containerWidth := ofZ 100;
       contentWidth := ofZ 50; lineHeight := ofZ 10 |} in
  dimensions step = Some {| paddingTop := ofZ 50; paddingBottom := ofZ 50 |} ∧
  ∃ zoom,
    getZoom (Some step) (Some dims) = Ok (Some zoom) ∧
    (∃ animation,
       scaleToFocus easeInOutQuad_std (None, Some step) (Some dims) = Ok animation ∧
       ∀ t, animation t = zoom) ∧
    (∃ animation,
       scaleToFocus easeInOutQuad_std (Some step, None) (Some dims) = Ok animation ∧
       ∀ t, animation t = zoom).
Proof.
  intros step dims. split; [reflexivity|].
  apply (scaleToFocus_holds_at_boundary easeInOutQuad_std step
           {| paddingTop := ofZ 50; paddingBottom := ofZ 50 |} dims).
  reflexivity.
Defined.

Lemma getZoom_half_example :
  getZoom
    (Some {| focusCenter := 0; focusCount := ofZ 20;
             dimensions := Some {| paddingTop := 0; paddingBottom := 0 |} |})
    (Some {| containerHeight := ofZ 100; containerWidth := ofZ 100;
             contentWidth := ofZ 50; lineHeight := ofZ 10 |})
  = Ok (Some (frac 1 2)).
Proof. cbn [getZoom dimensions]. do 2 f_equal. apply Qc_is_canon. reflexivity. Qed.

Lemma getZoom_quarter_example :
  getZoom
    (Some {| focusCenter := 0; focusCount := ofZ 40;
             dimensions := Some {| paddingTop := 0; paddingBottom := 0 |} |})
    (Some {| containerHeight := ofZ 100; containerWidth := ofZ 100;
             contentWidth := ofZ 50; lineHeight := ofZ 10 |})
  = Ok (Some (frac 1 4)).
Proof. cbn [getZoom dimensions]. do 2 f_equal. apply Qc_is_canon. reflexivity. Qed.

Lemma scaleToFocus_tweens_zooms_witness :
  let dims :=
    {| containerHeight := ofZ 100; containerWidth := ofZ 100;
       contentWidth := ofZ 50; lineHeight := ofZ 10 |} in
  let prev :=
    {| focusCenter := 0; focusCount := ofZ 20;
       dimensions := Some {| paddingTop := 0; paddingBottom := 0 |} |} in
  let next :=
    {| focusCenter := 0; focusCount := ofZ 40;
       dimensions := Some {| paddingTop := 0; paddingBottom := 0 |} |} in
  getZoom (Some prev) (Some dims) = Ok (Some (frac 1 2)) ∧
  getZoom (Some next) (Some dims) = Ok (Some (frac 1 4)) ∧
  frac 1 2 ≠ 0 ∧ frac 1 4 ≠ 0 ∧
  ∃ animation,
    scaleToFocus easeInOutQuad_std (Some prev, Some next) (Some dims) = Ok animation ∧
    (∀ t, animation t = tween (frac 1 2) (frac 1 4) t easeInOutQuad_std) ∧
    (∀ t, easeInOutQuad_std t = 0 → animation t = frac 1 2) ∧
    (∀ t, easeInOutQuad_std t = 1 → animation t = frac 1 4).
Proof.
  intros dims prev next.
  split; [exact getZoom_half_example|].
  split; [exact getZoom_quarter_example|].
  split; [discriminate|]. split; [discriminate|].
  apply (scaleToFocus_tweens_zooms easeInOutQuad_std prev next dims
           (frac 1 2) (frac 1 4) getZoom_half_example getZoom_quarter_example);
    discriminate.
Defined.
